(** * The R build system: DESCRIPTION parsing and dependency reconciliation

    A shallow embedding of [lib/spack/spack/build_systems/r.py]:
    [RBuilder.parse_description] (the record parser) and [RBuilder.install]
    (the reconciliation of the dependencies an R package declares in its
    DESCRIPTION file with those of the Spack recipe).

    Text is modelled as [string], read as a sequence of code points below
    256 (Latin-1); the tables of the Python built-ins below are the ones
    CPython uses on that range. *)

From Stdlib Require Import Ascii NArith ZArith Bool.
From stdpp Require Import gmap strings list sorting.

(** ** Python built-ins on [str] used by the builder *)
Module Py.

Definition ord (c : ascii) : N := N_of_ascii c.

Definition in_range (lo hi : N) (c : ascii) : bool :=
  ((lo <=? ord c) && (ord c <=? hi))%N.

(** [str.isalpha] on one character. *)
Definition isalpha (c : ascii) : bool :=
  in_range 65 90 c || in_range 97 122 c
  || (ord c =? 170)%N || (ord c =? 181)%N || (ord c =? 186)%N
  || in_range 192 214 c || in_range 216 246 c || in_range 248 255 c.

(** [str.isspace] on one character; also the class [\s] of [re]. *)
Definition isspace (c : ascii) : bool :=
  in_range 9 13 c || in_range 28 32 c || (ord c =? 133)%N || (ord c =? 160)%N.

(** The class [\d] of [re]. *)
Definition isdecimal (c : ascii) : bool := in_range 48 57 c.

(** The class [\w] of [re]: alphanumeric characters and the underscore. *)
Definition isword (c : ascii) : bool :=
  isalpha c || isdecimal c || (ord c =? 95)%N
  || in_range 178 179 c || (ord c =? 185)%N || in_range 188 190 c.

(** The characters at which [str.splitlines] breaks a line. *)
Definition islinebreak (c : ascii) : bool :=
  in_range 10 13 c || in_range 28 30 c || (ord c =? 133)%N.

Definition lower_char (c : ascii) : ascii :=
  if in_range 65 90 c || in_range 192 214 c || in_range 216 222 c
  then ascii_of_N (ord c + 32) else c.

(** [s.lower()] *)
Fixpoint lower (s : string) : string :=
  match s with
  | "" => ""
  | String c s' => String (lower_char c) (lower s')
  end.

Fixpoint lstrip (s : string) : string :=
  match s with
  | "" => ""
  | String c s' => if isspace c then lstrip s' else s
  end.

Fixpoint rstrip (s : string) : string :=
  match s with
  | "" => ""
  | String c s' =>
      match rstrip s' with
      | "" => if isspace c then "" else String c ""
      | r => String c r
      end
  end.

(** [s.strip()] *)
Definition strip (s : string) : string := rstrip (lstrip s).

(** [c in s] for a one-character [c]. *)
Fixpoint contains (c : ascii) (s : string) : bool :=
  match s with
  | "" => false
  | String a s' => if decide (a = c) then true else contains c s'
  end.

(** [s.split(c)]: one fragment more than there are separators. *)
Fixpoint split (c : ascii) (s : string) : list string :=
  match s with
  | "" => [""]
  | String a s' =>
      if decide (a = c) then "" :: split c s'
      else match split c s' with
           | frag :: frags => String a frag :: frags
           | [] => [String a ""]
           end
  end.

(** [s.split(c, maxsplit=1)]: cut at the first separator only. *)
Fixpoint split1 (c : ascii) (s : string) : list string :=
  match s with
  | "" => [""]
  | String a s' =>
      if decide (a = c) then [""; s']
      else match split1 c s' with
           | frag :: frags => String a frag :: frags
           | [] => [String a ""]
           end
  end.

(** [sep.join(parts)] *)
Definition join (sep : string) (parts : list string) : string :=
  String.concat sep parts.

(** [s.splitlines()]: the line terminators are dropped, "\r\n" counts as
    one terminator, and a terminator at the very end opens no new line. *)
Fixpoint splitlines (s : string) : list string :=
  match s with
  | "" => []
  | String c s' =>
      if islinebreak c then
        "" :: match s' with
              | String c' s'' =>
                  if (ord c =? 13)%N && (ord c' =? 10)%N
                  then splitlines s'' else splitlines s'
              | "" => []
              end
      else match splitlines s' with
           | line :: lines => String c line :: lines
           | [] => [String c ""]
           end
  end.

(** Every character of [s] is in the class [p]. *)
Fixpoint all_chars (p : ascii → bool) (s : string) : bool :=
  match s with
  | "" => true
  | String c s' => p c && all_chars p s'
  end.

(** The 256 characters. *)
Definition all_ascii : list ascii := ascii_of_nat <$> seq 0 256.

(** The line feed, as a string. *)
Definition nl : string := String (ascii_of_N 10) "".

(** A [dict] with [str] keys, in insertion order. *)
Definition dict (V : Type) : Type := list (string * V).

(** [d[k]] *)
Fixpoint dict_get {V} (k : string) (d : dict V) : option V :=
  match d with
  | [] => None
  | (k', v) :: d' => if decide (k = k') then Some v else dict_get k d'
  end.

(** [d[k] = v]: an existing key keeps its place, a new one goes last. *)
Fixpoint dict_set {V} (k : string) (v : V) (d : dict V) : dict V :=
  match d with
  | [] => [(k, v)]
  | (k', v') :: d' =>
      if decide (k = k') then (k, v) :: d' else (k', v') :: dict_set k v d'
  end.

(** [d.keys()] *)
Definition keys {V} (d : dict V) : list string := d.*1.

(** The exceptions the builder can meet. *)
Inductive exn : Type :=
| ImportError
| IndexError
| AssertionError (msg : string)
| KeyError (key : string)
| OSError
| SpecError (text : string).

End Py.

Import Py.

(** ** [RBuilder.parse_description] *)
Module Parser.

(** The generator's local state: [fields] and [package]. *)
Record state : Type := State {
  fields : gset string;
  package : dict string;
}.

Definition init : state := State ∅ [].

(** The nested function [append], which updates [package]: the pair
    that comes last gets a longer value. *)
Definition append (package : dict string) (field_value : string) : dict string :=
  match last package with
  | Some (last_field, _) =>
      match dict_get last_field package with
      | Some old => dict_set last_field (old +:+ field_value) package
      | None => package
      end
  | None => package
  end.

(** One turn of the [for] loop: the new state and the records yielded
    during the turn, or the exception raised. *)
Definition process_line (st : state) (line : string)
    : exn + state * list (dict string) :=
  if decide (strip line = "") then inr (st, [])
  else if contains ":" line then
    let parts := split1 ":" line in
    let field := strip (hd "" parts) in
    let value := strip (join "" (tl parts)) in
    match field with
    | "" => inl IndexError
    | String c _ =>
        let '(field, value) :=
          if negb (isalpha c) then ("", line) else (field, value) in
        if bool_decide (field ≠ "") && bool_decide (field ∈ fields st) then
          let result := package st in
          let st' := State {[ field ]} [(field, value)] in
          inr (st', if decide (result = []) then [] else [result])
        else if bool_decide (field ≠ "") then
          inr (State (fields st ∪ {[ field ]})
                     (dict_set field (strip value) (package st)), [])
        else
          inr (State (fields st) (append (package st) (" " +:+ strip value)), [])
    end
  else
    inr (State (fields st) (append (package st) (" " +:+ strip line)), []).

(** The [for] loop from the state [st]: the records yielded, in order,
    and the state at the end of the input or the exception raised. *)
Fixpoint loop (st : state) (lines : list string)
    : list (dict string) * (exn + state) :=
  match lines with
  | [] => ([], inr st)
  | line :: rest =>
      match process_line st line with
      | inl e => ([], inl e)
      | inr (st', ys) => let '(out, r) := loop st' rest in (ys ++ out, r)
      end
  end.

(** The generator, drained: the records it yields, and the exception that
    ends it, if any. *)
Definition parse_description (data : string) : list (dict string) * option exn :=
  match loop init (splitlines data) with
  | (out, inr st) =>
      (out ++ (if decide (package st = []) then [] else [package st]), None)
  | (out, inl e) => (out, Some e)
  end.

(** The states the loop can be in: those it reaches from the initial one. *)
Definition reachable (st : state) : Prop :=
  ∃ lines out, loop init lines = (out, inr st).

(** The two parts of a line with a colon, as the loop cuts them. *)
Definition candidate_field (line : string) : string :=
  strip (hd "" (split1 ":" line)).
Definition candidate_value (line : string) : string :=
  strip (join "" (tl (split1 ":" line))).

Definition starts_alpha (s : string) : bool :=
  match s with
  | "" => false
  | String c _ => isalpha c
  end.

Definition starts_nonalpha (s : string) : bool :=
  match s with
  | "" => false
  | String c _ => negb (isalpha c)
  end.

(** A field line: a line with a colon whose candidate field name starts
    with a letter. *)
Definition field_line (line : string) : bool :=
  contains ":" line && starts_alpha (candidate_field line).

(** A line the loop hands to [append]: it is not blank, and it has no
    colon or has one behind a candidate field name that has a first
    character which is no letter. A line with a colon and an empty
    candidate field name is not among them: the loop raises on it. *)
Definition appended_line (line : string) : bool :=
  bool_decide (strip line ≠ "")
  && (negb (contains ":" line) || starts_nonalpha (candidate_field line)).

(** The invariant of the loop: [fields] is the set of keys of [package]. *)
Definition wf (st : state) : Prop :=
  NoDup (keys (package st)) ∧ ∀ k, k ∈ fields st ↔ k ∈ keys (package st).

End Parser.

Import Parser.

(** ** The regular expressions of [RBuilder.install] *)
Module Re.

Fixpoint take_while (p : ascii → bool) (s : string) : string :=
  match s with
  | "" => ""
  | String c s' => if p c then String c (take_while p s') else ""
  end.

(** The class [[\w_-]]. *)
Definition isnamechar (c : ascii) : bool :=
  isword c || bool_decide (c = "_"%char) || bool_decide (c = "-"%char).

(** The class [[\d.-]]. *)
Definition isverchar (c : ascii) : bool :=
  isdecimal c || bool_decide (c = "."%char) || bool_decide (c = "-"%char).

(** [re.search(r"^[\w_-]+", s)]: the group 0 of the match, if any. *)
Definition search_name (s : string) : option string :=
  match take_while isnamechar s with
  | "" => None
  | m => Some m
  end.

(** The longest prefix of [s] that stays on one line and is followed by
    a closing parenthesis: what a greedy [.*(?=[)])] matches at the start
    of [s]. *)
Fixpoint upto_last_paren (s : string) : option string :=
  match s with
  | "" => None
  | String c s' =>
      if (ord c =? 10)%N then None
      else match upto_last_paren s' with
           | Some m => Some (String c m)
           | None => if bool_decide (c = ")"%char) then Some "" else None
           end
  end.

(** [re.search("(?<=[(]).*(?=[)])", s)]: the group 0 of the leftmost
    match, if any. *)
Fixpoint search_paren (s : string) : option string :=
  match s with
  | "" => None
  | String c s' =>
      if bool_decide (c = "("%char) then
        match upto_last_paren s' with
        | Some m => Some m
        | None => search_paren s'
        end
      else search_paren s'
  end.

Fixpoint strip_prefix (p s : string) : option string :=
  match p, s with
  | "", _ => Some s
  | String a p', String b s' => if decide (a = b) then strip_prefix p' s' else None
  | String _ _, "" => None
  end.

(** A match of [op\s([\d.-]+)] at the start of [s]: its group 1. *)
Definition match_op (op : string) (s : string) : option string :=
  match strip_prefix op s with
  | Some (String w rest) =>
      if isspace w then
        match take_while isverchar rest with
        | "" => None
        | ver => Some ver
        end
      else None
  | _ => None
  end.

(** [re.sub(op + r"\s([\d.-]+)", "@\1" + suffix, s)]: the matches are
    replaced from left to right; after a match the scan resumes behind it,
    which [skip] counts down. *)
Fixpoint sub_op (op suffix : string) (skip : nat) (s : string) : string :=
  match s with
  | "" => ""
  | String c s' =>
      match skip with
      | S k => sub_op op suffix k s'
      | O =>
          match match_op op s with
          | Some ver =>
              "@" +:+ ver +:+ suffix
                +:+ sub_op op suffix (String.length op + String.length ver) s'
          | None => String c (sub_op op suffix 0 s')
          end
      end
  end.

(** [re.sub(r">=\s([\d.-]+)", r"@\1:", s)] *)
Definition sub_ge (s : string) : string := sub_op ">=" ":" 0 s.

(** [re.sub(r"==\s([\d.-]+)", r"@\1", s)] *)
Definition sub_eq (s : string) : string := sub_op "==" "" 0 s.

(** No leading identifier: the specifier is empty or starts with a
    character that is no letter, digit, underscore or dash. *)
Definition no_leading_identifier (s : string) : bool :=
  match s with
  | "" => true
  | String c _ => negb (isnamechar c)
  end.

(** The name of the Spack package for the R package [name]: in lower
    case behind the prefix r-, but r alone for R itself. *)
Definition normalized_name (name : string) : string :=
  if decide (name = "R" ∨ name = "r") then "r" else "r-" +:+ lower name.

End Re.

Import Re.

(** ** [RBuilder.install] *)
Module Builder.

(** The parts of Spack the builder calls and that live in other modules:
    [spack.spec.Spec], [spack.dependency.Dependency], [spack.deptypes]. *)
Class Spack : Type := {
  SpecT : Type;                       (* spack.spec.Spec *)
  PkgT : Type;                        (* the package object *)
  mkSpec : string → option SpecT;     (* Spec(text); None: the text is refused *)
  spec_str : SpecT → string;          (* str(spec) *)
  satisfies : SpecT → SpecT → bool;   (* a.satisfies(b) *)
  BUILD : Z;                          (* dt.BUILD *)
  RUN : Z;                            (* dt.RUN *)
}.

Section WithSpack.
Context `{Spack}.

(** [spack.dependency.Dependency]: its three attributes. *)
Record Dependency : Type := MkDependency {
  dep_pkg : PkgT;
  dep_spec : SpecT;
  dep_flag : Z;
}.

(** What [install] reads from [self], [pkg] and [spec], and the two
    operations of [Dependency] it calls. *)
Record Env : Type := MkEnv {
  (* [pycran.parse], or None when [import pycran] fails *)
  pycran : option (string → list (dict string) * option exn);
  (* the text of DESCRIPTION under [self.stage.source_path]; None when it
     cannot be opened *)
  description : option string;
  pkg : PkgT;
  pkg_version : string;                              (* str(pkg.version) *)
  pkg_dependencies : list (SpecT * dict Dependency); (* pkg.dependencies.items() *)
  spec : SpecT;
  dep_eq_key : Dependency → string → bool;           (* d == k, k a key of the dict *)
  dep_merge : Dependency → Dependency → Dependency;  (* a.merge(b), as the new a *)
  configure_args : list string;                      (* self.configure_args() *)
  configure_vars : list string;                      (* self.configure_vars() *)
  r_lib_dir : string;                                (* self.pkg.module.r_lib_dir *)
  source_path : string;                              (* self.stage.source_path *)
}.

(** Computations that write [tty.debug] lines and may raise. *)
Definition M (A : Type) : Type := list string * (exn + A).

Definition ret {A} (a : A) : M A := ([], inr a).
Definition raise {A} (e : exn) : M A := ([], inl e).
Definition debug (msg : string) : M unit := ([msg], inr tt).
Definition bind {A B} (m : M A) (f : A → M B) : M B :=
  match m with
  | (log, inl e) => (log, inl e)
  | (log, inr a) => let '(log', r) := f a in (log ++ log', r)
  end.
Definition lift {A} (r : exn + A) : M A := ([], r).

Notation "'let*' x ':=' m 'in' k" := (bind m (λ x, k))
  (at level 10, x name, m at level 100, k at level 200).
Notation "'run*' m 'in' k" := (bind m (λ _, k))
  (at level 10, m at level 100, k at level 200).

(** [try: body except ImportError: handler] *)
Definition try_except_ImportError {A} (body handler : M A) : M A :=
  match body with
  | (log, inl ImportError) => let '(log', r) := handler in (log ++ log', r)
  | _ => body
  end.

(** [[d.strip() for d in value.split(",") if d != ""]] *)
Definition specifiers (value : string) : list string :=
  strip <$> filter (λ d, d ≠ "") (split "," value).

(** The two [r_deps.extend] of one record [desc]. *)
Definition desc_deps (desc : dict string) : list string :=
  match dict_get "Imports" desc with
  | Some value => specifiers value
  | None => []
  end ++
  match dict_get "Depends" desc with
  | Some value => specifiers value
  | None => []
  end.

(** The loop over [pycran.parse(file.read())]. *)
Definition read_r_deps (parse : string → list (dict string) * option exn)
    (text : string) : exn + list string :=
  match parse text with
  | (records, None) => inr (concat (desc_deps <$> records))
  | (_, Some e) => inl e
  end.

(** [Dependency(pkg, Spec(text), dt.BUILD | dt.RUN)], stored under [r_spec]. *)
Definition new_dep (p : PkgT) (r_spec text : string)
    : exn + string * Dependency :=
  match mkSpec text with
  | Some s => inr (r_spec, MkDependency p s (Z.lor BUILD RUN))
  | None => inl (SpecError text)
  end.

(** The body of the loop over [r_deps]: the key and the value it stores
    in [deps]. *)
Definition dep_of (p : PkgT) (r_dep : string) : exn + string * Dependency :=
  let name := search_name r_dep in
  let v := search_paren r_dep in
  match name with
  | None => inl (AssertionError ("Unable to find package name in " +:+ r_dep))
  | Some p0 =>
      let r_spec :=
        if decide (lower p0 ≠ "r") then "r-" +:+ lower (strip p0) else "r" in
      match v with
      | Some v0 =>
          let v1 := sub_ge v0 in
          let v2 := sub_eq v1 in
          new_dep p r_spec (r_spec +:+ v2)
      | None => new_dep p r_spec r_spec
      end
  end.

(** The loop over [r_deps], from a given [deps]. *)
Fixpoint convert (p : PkgT) (deps : gmap string Dependency)
    (r_deps : list string) : exn + gmap string Dependency :=
  match r_deps with
  | [] => inr deps
  | r_dep :: rest =>
      match dep_of p r_dep with
      | inl e => inl e
      | inr (r_spec, d) => convert p (<[r_spec := d]> deps) rest
      end
  end.

(** The rules of the recipe whose condition the concrete spec satisfies. *)
Definition spack_dependencies (env : Env) : list (dict Dependency) :=
  snd <$> filter (λ wd, satisfies (spec env) (fst wd) = true)
                 (pkg_dependencies env).

(** [d in merged_dependencies] *)
Definition dep_in (env : Env) (d : Dependency)
    (merged : gmap string Dependency) : bool :=
  existsb (dep_eq_key env d) (elements (dom merged)).

(** The loops that fill [merged_dependencies]. *)
Fixpoint merge_items (env : Env) (merged : gmap string Dependency)
    (items : dict Dependency) : exn + gmap string Dependency :=
  match items with
  | [] => inr merged
  | (n, d) :: rest =>
      if dep_in env d merged then
        match merged !! n with
        | Some m => merge_items env (<[n := dep_merge env m d]> merged) rest
        | None => inl (KeyError n)
        end
      else merge_items env (<[n := d]> merged) rest
  end.

Fixpoint merge_all (env : Env) (merged : gmap string Dependency)
    (deps : list (dict Dependency)) : exn + gmap string Dependency :=
  match deps with
  | [] => inr merged
  | dep :: rest =>
      match merge_items env merged dep with
      | inl e => inl e
      | inr merged' => merge_all env merged' rest
      end
  end.

Definition dquote : string := String "034"%char "".

(** The line both branches of the last loop write. *)
Definition depends_on_line (version : string) (d : Dependency) : string :=
  "    depends_on(" +:+ dquote +:+ spec_str (dep_spec d) +:+ dquote
  +:+ ", when=" +:+ dquote +:+ "@" +:+ version +:+ ":" +:+ dquote
  +:+ ", type=(" +:+ dquote +:+ "build" +:+ dquote +:+ ", "
  +:+ dquote +:+ "run" +:+ dquote +:+ "))".

(** [sorted(deps.keys())] *)
Definition sorted_keys (deps : gmap string Dependency) : list string :=
  merge_sort String.le (elements (dom deps)).

(** The body of the last loop, for the key [dep]. *)
Definition check_dep (version : string) (deps merged : gmap string Dependency)
    (dep : string) : M unit :=
  match deps !! dep with
  | None => raise (KeyError dep)
  | Some d =>
      match merged !! dep with
      | Some m =>
          if negb (satisfies (dep_spec m) (dep_spec d))
          then debug (depends_on_line version d)
          else ret tt
      | None => debug (depends_on_line version d)
      end
  end.

Fixpoint for_each {A} (body : A → M unit) (l : list A) : M unit :=
  match l with
  | [] => ret tt
  | x :: rest => run* body x in for_each body rest
  end.

(** The last loop of the [try] block. *)
Definition report (version : string) (deps merged : gmap string Dependency)
    : M unit :=
  for_each (check_dep version deps merged) (sorted_keys deps).

(** The verdict on a dependency of the DESCRIPTION file, stored under
    [name] as [d], against the merged rules of the recipe. *)
Inductive verdict : Type := Missing | Weaker | Satisfied.

Definition verdict_of (merged : gmap string Dependency) (name : string)
    (d : Dependency) : verdict :=
  match merged !! name with
  | None => Missing
  | Some m => if satisfies (dep_spec m) (dep_spec d) then Satisfied else Weaker
  end.

(** One line for each dependency that is missing or weaker, none for one
    that is satisfied, in the order of [names]. *)
Definition verdict_lines (version : string)
    (deps merged : gmap string Dependency) (names : list string) : list string :=
  name ← names;
  d ← option_list (deps !! name);
  match verdict_of merged name d with
  | Satisfied => []
  | Missing | Weaker => [depends_on_line version d]
  end.

(** The [try] block. *)
Definition verify (env : Env) : M unit :=
  let* parse := lift (from_option inr (inl ImportError) (pycran env)) in
  let* text := lift (from_option inr (inl OSError) (description env)) in
  let* r_deps := lift (read_r_deps parse text) in
  let* deps := lift (convert (pkg env) ∅ r_deps) in
  let* merged := lift (merge_all env ∅ (spack_dependencies env)) in
  report (pkg_version env) deps merged.

(** The arguments [install] passes to [pkg.module.R]. *)
Definition r_args (env : Env) : list string :=
  ["--vanilla"; "CMD"; "INSTALL"]
  ++ (if decide (configure_args env = []) then []
      else ["--configure-args=" +:+ join " " (configure_args env)])
  ++ (if decide (configure_vars env = []) then []
      else ["--configure-vars=" +:+ join " " (configure_vars env)])
  ++ ["--library=" +:+ r_lib_dir env; source_path env].

(** [install]: the debug lines written, and the arguments of the call of
    R or the exception that leaves the method. *)
Definition install (env : Env) : M (list string) :=
  run* try_except_ImportError (verify env)
         (debug "R package dependency verification requires pycran") in
  ret (r_args env).

End WithSpack.

End Builder.

Import Builder.

(** A small instance of the interface, for running the builder: a spec is
    its text, and one spec satisfies another when the texts agree. *)
#[local] Instance text_spack : Spack := {|
  SpecT := string;
  PkgT := unit;
  mkSpec := Some;
  spec_str := id;
  satisfies := λ a b, bool_decide (a = b);
  BUILD := 1;
  RUN := 4;
|}.

(** An environment for it: [parse_description] stands for [pycran.parse],
    the recipe declares no dependency and configures nothing. *)
Definition text_env (text : string) : Env :=
  MkEnv (Some parse_description) (Some text) tt "1.0" [] "r-pkg"
    (λ _ _, false) (λ a _, a) [] [] "/r/lib" "/stage/src".

(** The same environment without pycran, with one configure argument. *)
Definition text_env_no_pycran : Env :=
  MkEnv None None tt "1.0" [] "r-pkg"
    (λ _ _, false) (λ a _, a) ["--with-x"] [] "/r/lib" "/stage/src".

(** The state of the parser behind the line A: 1. *)
Definition state_after_A : state := State (∅ ∪ {[ "A" ]}) [("A", "1")].

(** The state of the parser behind the line Imports: A, *)
Definition state_after_Imports : state :=
  State (∅ ∪ {[ "Imports" ]}) [("Imports", "A,")].

(** ** Further notions used to state properties of the parser *)

(** A field name as the loop stores it: it starts with a letter and has
    no white space around it. *)
Definition good_key (k : string) : Prop :=
  starts_alpha k = true ∧ strip k = k.

(** Records that follow one another: each record after [prev] starts
    with a field name that the record before it holds. *)
Fixpoint chained (prev : option (dict string)) (records : list (dict string))
    : Prop :=
  match records with
  | [] => True
  | r :: rest =>
      match prev with
      | None => True
      | Some before => ∃ k, head (keys r) = Some k ∧ k ∈ keys before
      end
      ∧ chained (Some r) rest
  end.

(** ** [RPackage]: the attributes computed from [cran] and [bioc] *)
Module RPackage.

(** The class attributes the properties read; [versions] holds
    [str(v)] for the keys [v] of [cls.versions], in their order. *)
Record attrs : Type := Attrs {
  cran : option string;
  bioc : option string;
  versions : list string;
}.

(** The truth value of an attribute that is [None] or a [str]. *)
Definition truthy (o : option string) : bool :=
  match o with
  | Some (String _ _) => true
  | _ => false
  end.

(** [homepage] *)
Definition homepage (cls : attrs) : option string :=
  if truthy (cran cls) then
    Some ("https://cloud.r-project.org/package=" +:+ default "" (cran cls))
  else if truthy (bioc cls) then
    Some ("https://bioconductor.org/packages/" +:+ default "" (bioc cls))
  else None.

(** [url]; [list(cls.versions)[0]] raises on an empty list. *)
Definition url (cls : attrs) : exn + option string :=
  if truthy (cran cls) then
    match versions cls with
    | [] => inl IndexError
    | v :: _ =>
        inr (Some ("https://cloud.r-project.org/src/contrib/"
                   +:+ default "" (cran cls) +:+ "_" +:+ v +:+ ".tar.gz"))
    end
  else inr None.

(** [list_url] *)
Definition list_url (cls : attrs) : option string :=
  if truthy (cran cls) then
    Some ("https://cloud.r-project.org/src/contrib/Archive/"
          +:+ default "" (cran cls) +:+ "/")
  else None.

(** [git] *)
Definition git (self : attrs) : option string :=
  if truthy (bioc self) then
    Some ("https://git.bioconductor.org/packages/" +:+ default "" (bioc self))
  else None.

End RPackage.

(** ** Further inputs for the examples *)

(** An environment whose recipe has two active rules for r-a. *)
Definition rules_env : Env :=
  MkEnv (Some parse_description) (Some "Imports: A") tt "1.0"
    [("r-pkg", [("r-a", MkDependency tt "r-a@1.0:" 5)]);
     ("other", [("r-z", MkDependency tt "r-z" 5)]);
     ("r-pkg", [("r-a", MkDependency tt "r-a@2.0:" 5)])]
    "r-pkg" (λ _ _, false) (λ a _, a) [] [] "/r/lib" "/stage/src".

(** An environment with pycran and without a DESCRIPTION file. *)
Definition no_file_env : Env :=
  MkEnv (Some parse_description) None tt "1.0" [] "r-pkg"
    (λ _ _, false) (λ a _, a) [] [] "/r/lib" "/stage/src".

(** A CRAN package with one version. *)
Definition dplyr_attrs : RPackage.attrs :=
  RPackage.Attrs (Some "dplyr") None ["1.1.0"].

(** * Properties *)

(** ** Strings *)
Section StringFacts.

Lemma app_cons (c : ascii) (s t : string) :
  String c s +:+ t = String c (s +:+ t).
Proof. reflexivity. Qed.

Lemma app_empty_l (t : string) : "" +:+ t = t.
Proof. reflexivity. Qed.

Lemma rstrip_idem (s : string) : rstrip (rstrip s) = rstrip s.
Proof.
  induction s as [|c s IH]; [done|].
  simpl. destruct (rstrip s) as [|c' r] eqn:E.
  - destruct (isspace c) eqn:Ec; simpl; [done|]. by rewrite Ec.
  - change (rstrip (String c (String c' r))) with
      (match rstrip (String c' r) with
       | "" => if isspace c then "" else String c ""
       | r0 => String c r0
       end).
    by rewrite IH.
Qed.

(** [rstrip] keeps the first character of what it leaves. *)
Lemma rstrip_head (s : string) :
  rstrip s = "" ∨ ∃ c s' r, s = String c s' ∧ rstrip s = String c r.
Proof.
  destruct s as [|c s]; [by left|]. simpl.
  destruct (rstrip s) as [|c' r]; [destruct (isspace c)|];
    [by left|right; by eexists _, _, _..].
Qed.

Lemma lstrip_head (s : string) :
  lstrip s = "" ∨ ∃ c r, lstrip s = String c r ∧ isspace c = false.
Proof.
  induction s as [|c s IH]; [by left|].
  simpl. destruct (isspace c) eqn:Ec; [done|]. right; eauto.
Qed.

Lemma strip_idem (s : string) : strip (strip s) = strip s.
Proof.
  unfold strip.
  assert (lstrip (rstrip (lstrip s)) = rstrip (lstrip s)) as ->;
    [|apply rstrip_idem].
  destruct (lstrip_head s) as [->|(c & r & -> & Hc)]; [done|].
  destruct (rstrip_head (String c r)) as [->|(c' & s' & r' & [= <- <-] & ->)];
    [done|].
  simpl. by rewrite Hc.
Qed.

Lemma rstrip_empty_contains (c : ascii) (s : string) :
  rstrip s = "" → contains c s = true → isspace c = true.
Proof.
  induction s as [|a s IH]; [done|]. simpl.
  destruct (rstrip s) eqn:E; [|done].
  destruct (isspace a) eqn:Ea; [|done].
  case_decide; naive_solver.
Qed.

Lemma contains_lstrip (c : ascii) (s : string) :
  isspace c = false → contains c s = true → contains c (lstrip s) = true.
Proof.
  intros Hc. induction s as [|a s IH]; [done|]. simpl.
  destruct (isspace a) eqn:Ea; [|by simpl].
  case_decide; [congruence|done].
Qed.

(** A line that holds a character that is no white space is not blank. *)
Lemma contains_strip_nonempty (c : ascii) (s : string) :
  isspace c = false → contains c s = true → strip s ≠ "".
Proof.
  intros Hc Hs E. unfold strip in E.
  apply (rstrip_empty_contains c) in E; [congruence|].
  by apply contains_lstrip.
Qed.

Lemma app_empty_r (s : string) : s +:+ "" = s.
Proof. induction s as [|c s IH]; [done|]. by rewrite app_cons, IH. Qed.

Lemma length_app_s (s t : string) :
  String.length (s +:+ t) = String.length s + String.length t.
Proof. induction s as [|c s IH]; [done|]. rewrite app_cons. simpl. by rewrite IH. Qed.

(** A property checked on the 256 characters holds of every character. *)
Lemma ascii_forall (P : ascii → bool) :
  forallb P all_ascii = true → ∀ c, P c = true.
Proof.
  intros HP c. rewrite forallb_forall in HP. apply HP.
  rewrite <-(ascii_nat_embedding c). apply in_map, in_seq.
  pose proof (nat_ascii_bounded c). lia.
Qed.

Lemma namechar_not_space c : isnamechar c = true → isspace c = false.
Proof.
  intros Hc. apply negb_true_iff. revert Hc. apply implb_true_iff.
  revert c. by apply ascii_forall.
Qed.

Lemma namechar_not_open c : isnamechar c = true → c ≠ "("%char.
Proof. by intros Hc ->. Qed.

Lemma verchar_not_newline c : isverchar c = true → (ord c =? 10)%N = false.
Proof.
  intros Hc. apply negb_true_iff. revert Hc. apply implb_true_iff.
  revert c. by apply ascii_forall.
Qed.

Lemma lower_char_r c : lower_char c = "r"%char → c = "R"%char ∨ c = "r"%char.
Proof.
  intros Hc.
  assert (implb (bool_decide (lower_char c = "r"%char))
            (bool_decide (c = "R"%char) || bool_decide (c = "r"%char)) = true)
    as Hb by (clear Hc; revert c; by apply ascii_forall).
  rewrite bool_decide_true in Hb by done. simpl in Hb.
  apply orb_prop in Hb as [Hb|Hb]; apply bool_decide_eq_true_1 in Hb; auto.
Qed.

Lemma lower_empty (s : string) : lower s = "" → s = "".
Proof. by destruct s. Qed.

(** Only R and r are r in lower case. *)
Lemma lower_eq_r (s : string) : lower s = "r" ↔ s = "R" ∨ s = "r".
Proof.
  split; [|by intros [-> | ->]].
  destruct s as [|c s]; [done|]. simpl.
  intros [= Hc ->%lower_empty]. by destruct (lower_char_r c Hc) as [-> | ->]; auto.
Qed.

Lemma all_chars_impl (p q : ascii → bool) (s : string) :
  (∀ c, p c = true → q c = true) → all_chars p s = true → all_chars q s = true.
Proof.
  intros Hpq. induction s as [|c s IH]; [done|]. simpl.
  intros [? ?]%andb_prop. apply andb_true_intro. auto.
Qed.

Lemma all_chars_app (p : ascii → bool) (s t : string) :
  all_chars p (s +:+ t) = all_chars p s && all_chars p t.
Proof.
  induction s as [|c s IH]; [done|]. rewrite app_cons. simpl.
  by rewrite IH, andb_assoc.
Qed.

Lemma all_chars_not_contains (p : ascii → bool) (c : ascii) (s : string) :
  p c = false → all_chars p s = true → contains c s = false.
Proof.
  intros Hc. induction s as [|a s IH]; [done|]. simpl.
  intros [Ha ?]%andb_prop. case_decide; [congruence|auto].
Qed.

Lemma lstrip_id (s : string) :
  all_chars (λ c, negb (isspace c)) s = true → lstrip s = s.
Proof.
  destruct s as [|c s]; [done|]. simpl.
  intros [Hc _]%andb_prop. by apply negb_true_iff in Hc as ->.
Qed.

Lemma rstrip_id (s : string) :
  all_chars (λ c, negb (isspace c)) s = true → rstrip s = s.
Proof.
  induction s as [|c s IH]; [done|]. simpl.
  intros [Hc Hs]%andb_prop. rewrite IH by done.
  apply negb_true_iff in Hc as ->. by destruct s.
Qed.

(** A name of letters, digits, underscores and dashes is left as it is
    by [strip]. *)
Lemma strip_name (s : string) : all_chars isnamechar s = true → strip s = s.
Proof.
  intros Hs. unfold strip.
  assert (all_chars (λ c, negb (isspace c)) s = true) as Hs'.
  { eapply all_chars_impl; [|done]. intros c Hc.
    apply negb_true_iff. by apply namechar_not_space. }
  by rewrite lstrip_id, rstrip_id.
Qed.

End StringFacts.

(** ** Dictionaries *)
Section DictFacts.
Context {V : Type}.
Implicit Types (d pre : dict V) (k : string) (v : V).

Lemma keys_snoc pre k v : keys (pre ++ [(k, v)]) = keys pre ++ [k].
Proof. unfold keys. by rewrite fmap_app. Qed.

Lemma dict_get_snoc pre k v :
  k ∉ keys pre → dict_get k (pre ++ [(k, v)]) = Some v.
Proof.
  induction pre as [|[k' v'] pre IH]; simpl; intros Hk.
  - by rewrite decide_True.
  - apply not_elem_of_cons in Hk as [? ?]. rewrite decide_False; auto.
Qed.

Lemma dict_set_snoc pre k v v' :
  k ∉ keys pre → dict_set k v' (pre ++ [(k, v)]) = pre ++ [(k, v')].
Proof.
  induction pre as [|[k0 v0] pre IH]; simpl; intros Hk.
  - by rewrite decide_True.
  - apply not_elem_of_cons in Hk as [? ?]. rewrite decide_False; [|done].
    by rewrite IH.
Qed.

(** Assigning to a key the dictionary does not hold puts it last. *)
Lemma dict_set_fresh d k v : k ∉ keys d → dict_set k v d = d ++ [(k, v)].
Proof.
  induction d as [|[k0 v0] d IH]; simpl; intros Hk; [done|].
  apply not_elem_of_cons in Hk as [? ?]. rewrite decide_False; [|done].
  by rewrite IH.
Qed.

Lemma snoc_NoDup pre k v : NoDup (keys (pre ++ [(k, v)])) → k ∉ keys pre.
Proof.
  rewrite keys_snoc. intros Hnd Hk.
  apply NoDup_app in Hnd as (_ & Hdis & _). apply (Hdis k Hk).
  by apply list_elem_of_singleton.
Qed.

End DictFacts.

(** ** The regular expressions *)
Section ReFacts.
Implicit Types (s name ver : string).

Lemma take_while_all (p : ascii → bool) s rest :
  all_chars p s = true →
  match rest with "" => true | String c _ => negb (p c) end = true →
  take_while p (s +:+ rest) = s.
Proof.
  intros Hs Hrest. induction s as [|c s IH].
  - rewrite app_empty_l. destruct rest as [|c r]; [done|]. simpl.
    by apply negb_true_iff in Hrest as ->.
  - simpl in Hs. apply andb_prop in Hs as [Hc Hs].
    rewrite app_cons. simpl. rewrite Hc. by rewrite IH.
Qed.

Lemma search_name_none s :
  search_name s = None ↔ no_leading_identifier s = true.
Proof.
  unfold search_name. destruct s as [|c s]; [done|]. simpl.
  by destruct (isnamechar c).
Qed.

Lemma search_name_app name rest :
  name ≠ "" → all_chars isnamechar name = true →
  no_leading_identifier rest = true →
  search_name (name +:+ rest) = Some name.
Proof.
  intros Hne Hname Hrest. unfold search_name.
  rewrite take_while_all by done. by destruct name.
Qed.

Lemma upto_last_paren_close s :
  all_chars (λ c, negb (ord c =? 10)%N) s = true →
  upto_last_paren (s +:+ ")") = Some s.
Proof.
  induction s as [|c s IH]; [done|]. rewrite app_cons. simpl.
  intros [Hc Hs]%andb_prop.
  apply negb_true_iff in Hc as ->. by rewrite IH.
Qed.

Lemma search_paren_skip name s :
  all_chars isnamechar name = true →
  search_paren (name +:+ s) = search_paren s.
Proof.
  induction name as [|c name IH]; [done|]. rewrite app_cons. simpl.
  intros [Hc Hs]%andb_prop.
  rewrite bool_decide_false by by apply namechar_not_open. auto.
Qed.

Lemma search_paren_name name :
  all_chars isnamechar name = true → search_paren name = None.
Proof.
  intros Hname. rewrite <-(app_empty_r name). by rewrite search_paren_skip.
Qed.

Lemma search_paren_clause name s :
  all_chars isnamechar name = true →
  all_chars (λ c, negb (ord c =? 10)%N) s = true →
  search_paren (name +:+ " (" +:+ s +:+ ")") = Some s.
Proof.
  intros Hname Hs. rewrite search_paren_skip by done.
  rewrite !app_cons, app_empty_l. simpl. by rewrite upto_last_paren_close.
Qed.

Lemma strip_prefix_app op s : strip_prefix op (op +:+ s) = Some s.
Proof.
  induction op as [|c op IH]; [by destruct s|].
  rewrite app_cons. simpl. by rewrite decide_True.
Qed.

Lemma match_op_clause op w ver :
  isspace w = true → ver ≠ "" → all_chars isverchar ver = true →
  match_op op (op +:+ String w ver) = Some ver.
Proof.
  intros Hw Hne Hver. unfold match_op. rewrite strip_prefix_app, Hw.
  rewrite <-(app_empty_r ver) at 1. rewrite take_while_all by done.
  by destruct ver.
Qed.

Lemma sub_op_skip_all op suffix s k :
  String.length s ≤ k → sub_op op suffix k s = "".
Proof.
  revert k. induction s as [|c s IH]; [done|]. simpl.
  intros [|k] Hk; [lia|]. apply IH. lia.
Qed.

Lemma sub_op_absent o op suffix s :
  contains o s = false → sub_op (String o op) suffix 0 s = s.
Proof.
  induction s as [|c s IH]; [done|]. simpl.
  case_decide; [done|]. intros Hs.
  unfold match_op. simpl. rewrite decide_False by done. by rewrite IH.
Qed.

(** One clause, an operator, a white space and a version, is replaced as
    a whole. *)
Lemma sub_op_clause o op suffix w ver :
  isspace w = true → ver ≠ "" → all_chars isverchar ver = true →
  sub_op (String o op) suffix 0 (String o op +:+ String w ver)
  = "@" +:+ ver +:+ suffix.
Proof.
  intros Hw Hne Hver.
  pose proof (match_op_clause (String o op) w ver Hw Hne Hver) as Hm.
  rewrite app_cons in Hm |- *.
  change (sub_op (String o op) suffix 0 (String o (op +:+ String w ver)))
    with (match match_op (String o op) (String o (op +:+ String w ver)) with
          | Some v =>
              "@" +:+ v +:+ suffix
                +:+ sub_op (String o op) suffix
                      (String.length (String o op) + String.length v)
                      (op +:+ String w ver)
          | None => String o (sub_op (String o op) suffix 0 (op +:+ String w ver))
          end).
  rewrite Hm. rewrite sub_op_skip_all; [by rewrite app_empty_r|].
  rewrite length_app_s. simpl. lia.
Qed.

Lemma verchar_facts ver :
  all_chars isverchar ver = true →
  contains "=" ver = false ∧ contains ">" ver = false
  ∧ all_chars (λ c, negb (ord c =? 10)%N) ver = true.
Proof.
  intros Hver. split_and!.
  - by apply (all_chars_not_contains isverchar).
  - by apply (all_chars_not_contains isverchar).
  - eapply all_chars_impl; [|done]. intros c Hc.
    apply negb_true_iff. by apply verchar_not_newline.
Qed.

Lemma contains_app c s t :
  contains c (s +:+ t) = contains c s || contains c t.
Proof.
  induction s as [|a s IH]; [done|]. rewrite app_cons. simpl.
  by case_decide.
Qed.

(** The two substitutions on a clause with >=. *)
Lemma sub_lower_bound ver :
  ver ≠ "" → all_chars isverchar ver = true →
  sub_eq (sub_ge (">= " +:+ ver)) = "@" +:+ ver +:+ ":".
Proof.
  intros Hne Hver. destruct (verchar_facts ver Hver) as (He & _ & _).
  unfold sub_ge, sub_eq.
  change (">= " +:+ ver) with (">=" +:+ String " " ver).
  rewrite sub_op_clause by done. apply sub_op_absent.
  rewrite !contains_app, He. done.
Qed.

(** The two substitutions on a clause with ==. *)
Lemma sub_pinned ver :
  ver ≠ "" → all_chars isverchar ver = true →
  sub_eq (sub_ge ("== " +:+ ver)) = "@" +:+ ver.
Proof.
  intros Hne Hver. destruct (verchar_facts ver Hver) as (_ & Hg & _).
  unfold sub_ge, sub_eq.
  rewrite (sub_op_absent ">") by (rewrite contains_app, Hg; done).
  change ("== " +:+ ver) with ("==" +:+ String " " ver).
  rewrite sub_op_clause by done. by rewrite app_empty_r.
Qed.

End ReFacts.

(** ** The parser *)
Section ParserFacts.
Implicit Types (st : state) (line : string).

Lemma append_nil (x : string) : append [] x = [].
Proof. reflexivity. Qed.

(** [append] extends the value of the last pair of [package]. *)
Lemma append_snoc (pre : dict string) (k v x : string) :
  NoDup (keys (pre ++ [(k, v)])) →
  append (pre ++ [(k, v)]) x = pre ++ [(k, v +:+ x)].
Proof.
  intros Hk%snoc_NoDup. unfold append.
  rewrite last_snoc, dict_get_snoc by done. by apply dict_set_snoc.
Qed.

Lemma keys_append (d : dict string) (x : string) :
  NoDup (keys d) → keys (append d x) = keys d.
Proof.
  destruct d as [|p d _] using rev_ind; [done|]. destruct p as [k v].
  intros Hnd. rewrite append_snoc by done. by rewrite !keys_snoc.
Qed.

Lemma colon_not_blank line : contains ":" line = true → strip line ≠ "".
Proof. by apply contains_strip_nonempty. Qed.

(** The cases of [process_line], one equation each. *)
Lemma process_line_blank st line :
  strip line = "" → process_line st line = inr (st, []).
Proof. intros E. unfold process_line. by rewrite decide_True. Qed.

Lemma process_line_no_colon st line :
  strip line ≠ "" → contains ":" line = false →
  process_line st line
  = inr (State (fields st) (append (package st) (" " +:+ strip line)), []).
Proof.
  intros E Hc. unfold process_line. rewrite decide_False by done.
  by rewrite Hc.
Qed.

Lemma process_line_empty_name st line :
  contains ":" line = true → candidate_field line = "" →
  process_line st line = inl IndexError.
Proof.
  intros Hc Hf. unfold process_line.
  rewrite decide_False by by apply colon_not_blank. rewrite Hc.
  unfold candidate_field in Hf. by rewrite Hf.
Qed.

Lemma process_line_nonalpha st line :
  contains ":" line = true → starts_nonalpha (candidate_field line) = true →
  process_line st line
  = inr (State (fields st) (append (package st) (" " +:+ strip line)), []).
Proof.
  intros Hc Hf. unfold process_line.
  rewrite decide_False by by apply colon_not_blank. rewrite Hc.
  unfold candidate_field in Hf.
  destruct (strip (hd "" (split1 ":" line))) as [|c f]; [done|].
  simpl in Hf. by rewrite Hf.
Qed.

Lemma process_line_repeated st line :
  field_line line = true → candidate_field line ∈ fields st →
  process_line st line
  = inr (State {[ candidate_field line ]}
               [(candidate_field line, candidate_value line)],
         if decide (package st = []) then [] else [package st]).
Proof.
  intros [Hc Hf]%andb_prop Hin. unfold process_line.
  rewrite decide_False by by apply colon_not_blank. rewrite Hc.
  unfold candidate_field, candidate_value in *.
  destruct (strip (hd "" (split1 ":" line))) as [|c f]; [done|].
  simpl in Hf. rewrite Hf. simpl.
  by rewrite bool_decide_true.
Qed.

Lemma process_line_new st line :
  field_line line = true → candidate_field line ∉ fields st →
  process_line st line
  = inr (State (fields st ∪ {[ candidate_field line ]})
               (dict_set (candidate_field line)
                         (strip (candidate_value line)) (package st)),
         []).
Proof.
  intros [Hc Hf]%andb_prop Hin. unfold process_line.
  rewrite decide_False by by apply colon_not_blank. rewrite Hc.
  unfold candidate_field, candidate_value in *.
  destruct (strip (hd "" (split1 ":" line))) as [|c f]; [done|].
  simpl in Hf. rewrite Hf. simpl.
  by rewrite bool_decide_false.
Qed.

(** Every line falls under one of the cases. *)
Lemma line_cases line :
  strip line = ""
  ∨ (strip line ≠ "" ∧ contains ":" line = false)
  ∨ (contains ":" line = true ∧ candidate_field line = "")
  ∨ (contains ":" line = true ∧ starts_nonalpha (candidate_field line) = true)
  ∨ field_line line = true.
Proof.
  destruct (decide (strip line = "")); [by left|]. right.
  destruct (contains ":" line) eqn:Hc; [|by left]. right.
  unfold field_line. rewrite Hc.
  destruct (candidate_field line) as [|c f]; [by left|]. right. simpl.
  destruct (isalpha c); auto.
Qed.

Lemma wf_init : wf init.
Proof. split; [constructor|]. intros k. simpl. set_solver. Qed.

Lemma process_line_wf st line st' ys :
  wf st → process_line st line = inr (st', ys) → wf st'.
Proof.
  intros [Hnd Hf] Hp.
  destruct (line_cases line) as [E|[[E Hc]|[[Hc E]|[[Hc E]|E]]]].
  - rewrite process_line_blank in Hp by done. by simplify_eq.
  - rewrite process_line_no_colon in Hp by done. simplify_eq.
    split; simpl; by rewrite keys_append.
  - rewrite process_line_empty_name in Hp by done. done.
  - rewrite process_line_nonalpha in Hp by done. simplify_eq.
    split; simpl; by rewrite keys_append.
  - destruct (decide (candidate_field line ∈ fields st)) as [Hin|Hin].
    + rewrite process_line_repeated in Hp by done. simplify_eq.
      split; simpl; [apply NoDup_singleton|]. intros k.
      by rewrite elem_of_singleton, list_elem_of_singleton.
    + rewrite process_line_new in Hp by done. simplify_eq.
      assert (candidate_field line ∉ keys (package st)) by by rewrite <-Hf.
      rewrite dict_set_fresh by done. split; simpl; rewrite keys_snoc.
      * apply NoDup_app. split_and!; [done| |apply NoDup_singleton].
        intros k ? ->%list_elem_of_singleton. done.
      * intros k.
        by rewrite elem_of_union, elem_of_app, Hf, elem_of_singleton,
          list_elem_of_singleton.
Qed.

Lemma loop_wf st lines out st' :
  wf st → loop st lines = (out, inr st') → wf st'.
Proof.
  revert st out. induction lines as [|line rest IH]; simpl; intros st out Hwf Hl.
  - by simplify_eq.
  - destruct (process_line st line) as [e|[st1 ys]] eqn:Hp; [done|].
    destruct (loop st1 rest) as [out1 r] eqn:Hl1. simplify_eq.
    eapply IH; [|done]. by eapply process_line_wf.
Qed.

Lemma reachable_wf st : reachable st → wf st.
Proof. intros (lines & out & Hl). eapply loop_wf; [apply wf_init|done]. Qed.

Lemma loop_app st l1 l2 :
  loop st (l1 ++ l2)
  = match loop st l1 with
    | (out, inr st') => let '(out', r) := loop st' l2 in (out ++ out', r)
    | (out, inl e) => (out, inl e)
    end.
Proof.
  revert st. induction l1 as [|line l1 IH]; simpl; intros st.
  - by destruct (loop st l2).
  - destruct (process_line st line) as [e|[st1 ys]]; [done|].
    rewrite IH. destruct (loop st1 l1) as [out [e|st2]]; [done|].
    destruct (loop st2 l2). by rewrite app_assoc.
Qed.

Lemma reachable_step st line st' ys :
  reachable st → process_line st line = inr (st', ys) → reachable st'.
Proof.
  intros (lines & out & Hl) Hp. exists (lines ++ [line]), (out ++ ys ++ []).
  rewrite loop_app, Hl. simpl. by rewrite Hp.
Qed.

(** The loop raises exactly at a line with a colon and nothing but white
    space before it. *)
Lemma process_line_raises st line e :
  process_line st line = inl e
  ↔ e = IndexError ∧ contains ":" line = true ∧ candidate_field line = "".
Proof.
  split.
  - intros Hp.
    destruct (line_cases line) as [E|[[E Hc]|[[Hc E]|[[Hc E]|E]]]].
    + by rewrite process_line_blank in Hp.
    + by rewrite process_line_no_colon in Hp.
    + rewrite process_line_empty_name in Hp by done. by simplify_eq.
    + by rewrite process_line_nonalpha in Hp.
    + destruct (decide (candidate_field line ∈ fields st)).
      * by rewrite process_line_repeated in Hp.
      * by rewrite process_line_new in Hp.
  - intros (-> & Hc & E). by apply process_line_empty_name.
Qed.

Lemma process_line_yields st line st' ys :
  process_line st line = inr (st', ys) → Forall (λ r, r ≠ []) ys.
Proof.
  intros Hp.
  destruct (line_cases line) as [E|[[E Hc]|[[Hc E]|[[Hc E]|E]]]].
  - rewrite process_line_blank in Hp by done. by simplify_eq.
  - rewrite process_line_no_colon in Hp by done. by simplify_eq.
  - by rewrite process_line_empty_name in Hp.
  - rewrite process_line_nonalpha in Hp by done. by simplify_eq.
  - destruct (decide (candidate_field line ∈ fields st)).
    + rewrite process_line_repeated in Hp by done. simplify_eq.
      case_decide; by repeat constructor.
    + rewrite process_line_new in Hp by done. by simplify_eq.
Qed.

Lemma loop_yields st lines :
  Forall (λ r, r ≠ []) (loop st lines).1.
Proof.
  revert st. induction lines as [|line rest IH]; simpl; intros st.
  - constructor.
  - destruct (process_line st line) as [e|[st1 ys]] eqn:Hp; [constructor|].
    specialize (IH st1). destruct (loop st1 rest) as [out r]. simpl in *.
    apply Forall_app. split; [|done]. by eapply process_line_yields.
Qed.

(** C10. Every record the parser yields holds at least one field: the
    yield at a repeated field name and the yield at the end of the input
    are both guarded, and this also holds for the records yielded before
    an exception. *)
Theorem parse_description_yields_nonempty (data : string) :
  Forall (λ r : dict string, r ≠ []) (parse_description data).1.
Proof.
  unfold parse_description.
  pose proof (loop_yields init (splitlines data)) as Hl.
  destruct (loop init (splitlines data)) as [out [e|st]]; simpl in *; [done|].
  apply Forall_app. split; [done|].
  case_decide; by repeat constructor.
Qed.

(** C3. In every state the loop reaches, a field line whose field name is
    a key of the record in progress yields that record and leaves a new one
    that holds the repeated field alone, [fields] being that one name. So a
    field name that comes twice in a row yields the record up to and with
    its first occurrence, and the second occurrence opens the next record;
    for example on the lines A: 1, B: 2, B: 3. *)
Theorem repeated_field_starts_new_record :
  (∀ st line,
     reachable st → field_line line = true →
     candidate_field line ∈ keys (package st) →
     process_line st line
     = inr (State {[ candidate_field line ]}
                  [(candidate_field line, candidate_value line)],
            [package st]))
  ∧ (∀ st l1 l2,
       reachable st → field_line l1 = true → field_line l2 = true →
       candidate_field l1 ∉ keys (package st) →
       candidate_field l2 = candidate_field l1 →
       loop st [l1; l2]
       = ([package st ++ [(candidate_field l1, candidate_value l1)]],
          inr (State {[ candidate_field l1 ]}
                     [(candidate_field l1, candidate_value l2)])))
  ∧ parse_description ("A: 1" +:+ nl +:+ "B: 2" +:+ nl +:+ "B: 3")
    = ([[("A", "1"); ("B", "2")]; [("B", "3")]], None).
Proof.
  assert (∀ st line,
     reachable st → field_line line = true →
     candidate_field line ∈ keys (package st) →
     process_line st line
     = inr (State {[ candidate_field line ]}
                  [(candidate_field line, candidate_value line)],
            [package st])) as Hstep.
  { intros st line [Hnd Hf]%reachable_wf Hl Hin.
    rewrite process_line_repeated by (by rewrite ?Hf).
    destruct (package st); [by apply elem_of_nil in Hin|done]. }
  split_and!; [done| |by vm_compute].
  intros st l1 l2 Hr Hl1 Hl2 Hnew Heq.
  pose proof (reachable_wf _ Hr) as [Hnd Hf]. simpl.
  rewrite process_line_new by (by rewrite ?Hf).
  rewrite dict_set_fresh by done.
  unfold candidate_value at 1. rewrite strip_idem. fold (candidate_value l1).
  match goal with |- context [process_line ?s l2] => set (st1 := s) end.
  assert (reachable st1) as Hr1.
  { eapply (reachable_step st l1); [done|].
    rewrite process_line_new by (by rewrite ?Hf).
    rewrite dict_set_fresh by done.
    unfold candidate_value at 1. by rewrite strip_idem. }
  rewrite Hstep; [|done..|].
  - simpl. by rewrite Heq.
  - rewrite Heq. subst st1. simpl. rewrite keys_snoc.
    apply elem_of_app. right. by apply list_elem_of_singleton.
Qed.

(** X25. In every state the loop reaches, a line that is not blank and
    has no colon, or has one behind a candidate field name whose first
    character is no letter, is trimmed and added, behind one space, to the
    value of the last field of the record in progress, which is the field
    inserted last: such a line behind a field line extends the value of
    that field. With no field yet the line is dropped. For example
    Imports: A, and the indented line B (>= 1.0) give the value
    A, B (>= 1.0). *)
Theorem appended_line_extends_last_field :
  (∀ st line,
     reachable st → appended_line line = true →
     (∀ pre k v,
        package st = pre ++ [(k, v)] →
        process_line st line
        = inr (State (fields st) (pre ++ [(k, v +:+ " " +:+ strip line)]), []))
     ∧ (package st = [] → process_line st line = inr (st, [])))
  ∧ (∀ st l1 l2,
       reachable st → field_line l1 = true → appended_line l2 = true →
       ∃ out st' pre,
         loop st [l1; l2] = (out, inr st')
         ∧ package st'
           = pre ++ [(candidate_field l1,
                      candidate_value l1 +:+ " " +:+ strip l2)])
  ∧ parse_description ("Imports: A," +:+ nl +:+ "    B (>= 1.0)")
    = ([[("Imports", "A, B (>= 1.0)")]], None).
Proof.
  assert (∀ st line,
     reachable st → appended_line line = true →
     (∀ pre k v,
        package st = pre ++ [(k, v)] →
        process_line st line
        = inr (State (fields st) (pre ++ [(k, v +:+ " " +:+ strip line)]), []))
     ∧ (package st = [] → process_line st line = inr (st, []))) as Hstep.
  { intros st line [Hnd Hf]%reachable_wf [Hb Hk]%andb_prop.
    apply bool_decide_eq_true_1 in Hb.
    assert (process_line st line
      = inr (State (fields st) (append (package st) (" " +:+ strip line)), []))
      as ->.
    { apply orb_prop in Hk as [Hk|Hk].
      - apply process_line_no_colon; [done|]. by apply negb_true_iff.
      - destruct (contains ":" line) eqn:Hc.
        + by apply process_line_nonalpha.
        + by apply process_line_no_colon. }
    split.
    - intros pre k v E. rewrite E in Hnd |- *. by rewrite append_snoc.
    - intros E. rewrite E, append_nil. destruct st; simpl in *. by subst. }
  split_and!; [done| |by vm_compute].
  intros st l1 l2 Hr Hl1 Hl2.
  pose proof (reachable_wf _ Hr) as [Hnd Hf].
  destruct (decide (candidate_field l1 ∈ fields st)) as [Hin|Hin].
  - pose proof (process_line_repeated st l1 Hl1 Hin) as Hp.
    pose proof (reachable_step _ _ _ _ Hr Hp) as Hr1.
    destruct (Hstep _ l2 Hr1 Hl2) as [Hp2 _].
    eexists _, _, []. simpl. rewrite Hp. by rewrite (Hp2 [] _ _ eq_refl).
  - pose proof (process_line_new st l1 Hl1 Hin) as Hp.
    rewrite dict_set_fresh in Hp by by rewrite <-Hf.
    unfold candidate_value in Hp at 1. rewrite strip_idem in Hp.
    fold (candidate_value l1) in Hp.
    pose proof (reachable_step _ _ _ _ Hr Hp) as Hr1.
    destruct (Hstep _ l2 Hr1 Hl2) as [Hp2 _].
    eexists _, _, (package st). simpl. rewrite Hp.
    by rewrite (Hp2 _ _ _ eq_refl).
Qed.

(** C4. The line :x has a colon and an empty candidate field name: the
    loop raises IndexError at it, so the parser is not total. *)
Theorem parse_description_raises_on_empty_field_name :
  parse_description ":x" = ([], Some IndexError).
Proof. by vm_compute. Qed.

(** C8. The line with two spaces, a colon and B has a colon behind a
    candidate field name that is empty, so no letter starts it: it is a
    continuation line. Behind the line Imports: A, the loop does not add
    it to the value of Imports: it raises IndexError at the first
    character of the empty name, and no record is yielded. *)
Theorem continuation_with_empty_name_raises :
  contains ":" "  : B" = true
  ∧ candidate_field "  : B" = ""
  ∧ starts_alpha (candidate_field "  : B") = false
  ∧ process_line state_after_Imports "  : B" = inl IndexError
  ∧ parse_description ("Imports: A," +:+ nl +:+ "  : B")
    = ([], Some IndexError).
Proof. split_and!; by vm_compute. Qed.

End ParserFacts.


(** ** The builder *)
Section BuilderFacts.
Context `{Spack}.
Implicit Types (p : PkgT) (deps merged : gmap string Dependency).

Lemma take_while_all_chars (q : ascii → bool) (s : string) :
  all_chars q (take_while q s) = true.
Proof.
  induction s as [|c s IH]; [done|]. simpl.
  destruct (q c) eqn:Hc; [|done]. simpl. by rewrite Hc.
Qed.

Lemma search_name_chars (s name : string) :
  search_name s = Some name → name ≠ "" ∧ all_chars isnamechar name = true.
Proof.
  unfold search_name. pose proof (take_while_all_chars isnamechar s) as Hall.
  destruct (take_while isnamechar s); [done|]. by intros [= <-].
Qed.

(** The key [r_spec] the loop computes is the normalized name. *)
Lemma r_spec_normalized (name : string) :
  all_chars isnamechar name = true →
  (if decide (lower name ≠ "r") then "r-" +:+ lower (strip name) else "r")
  = normalized_name name.
Proof.
  intros Hname. unfold normalized_name. rewrite strip_name by done.
  destruct (decide (lower name ≠ "r")) as [Hr|Hr].
  - rewrite decide_False; [done|]. by rewrite <-lower_eq_r.
  - rewrite decide_True; [done|]. apply lower_eq_r.
    by destruct (decide (lower name = "r")).
Qed.

(** [dep_of] on a specifier with a leading identifier. *)
Lemma dep_of_named p (r_dep name : string) :
  search_name r_dep = Some name →
  dep_of p r_dep
  = match search_paren r_dep with
    | Some v =>
        new_dep p (normalized_name name)
          (normalized_name name +:+ sub_eq (sub_ge v))
    | None => new_dep p (normalized_name name) (normalized_name name)
    end.
Proof.
  intros Hname. destruct (search_name_chars _ _ Hname) as [_ Hall].
  unfold dep_of. rewrite Hname. cbv zeta. by rewrite r_spec_normalized.
Qed.

Lemma dep_of_unnamed p (r_dep : string) :
  no_leading_identifier r_dep = true →
  dep_of p r_dep
  = inl (AssertionError ("Unable to find package name in " +:+ r_dep)).
Proof.
  intros Hno%search_name_none. unfold dep_of. by rewrite Hno.
Qed.

Lemma new_dep_no_assertion p (r_spec text msg : string) :
  new_dep p r_spec text ≠ inl (AssertionError msg).
Proof. unfold new_dep. by destruct (mkSpec text). Qed.

Lemma convert_app p deps (l1 l2 : list string) :
  convert p deps (l1 ++ l2)
  = match convert p deps l1 with
    | inl e => inl e
    | inr deps' => convert p deps' l2
    end.
Proof.
  revert deps. induction l1 as [|r l1 IH]; [done|]. simpl. intros deps.
  by destruct (dep_of p r) as [e|[n d]].
Qed.

(** Specifiers that are stored under other keys leave a key as it is. *)
Lemma convert_lookup_other p deps deps' (l : list string) (n : string) :
  Forall (λ r, ∀ x, dep_of p r = inr x → x.1 ≠ n) l →
  convert p deps l = inr deps' → deps' !! n = deps !! n.
Proof.
  intros Hl. revert deps. induction Hl as [|r l Hr Hl IH]; simpl; intros deps.
  - by intros [= ->].
  - destruct (dep_of p r) as [e|[n' d]] eqn:Hd; [done|]. intros Hc.
    rewrite (IH _ Hc). apply lookup_insert_ne. by apply (Hr (n', d)).
Qed.

(** What [deps] holds under a key is lost once a later specifier is
    stored under it. *)
Lemma convert_overwrite p deps (mid after : list string) (r n : string)
    (a d : Dependency) :
  dep_of p r = inr (n, d) →
  convert p (<[n := a]> deps) (mid ++ r :: after)
  = convert p deps (mid ++ r :: after).
Proof.
  intros Hr. revert deps. induction mid as [|r' mid IH]; simpl; intros deps.
  - by rewrite Hr, insert_insert_eq.
  - destruct (dep_of p r') as [e|[n' d']]; [done|].
    destruct (decide (n' = n)) as [->|Hne].
    + by rewrite insert_insert_eq.
    + rewrite insert_insert_ne by done. apply IH.
Qed.

Lemma convert_raises p deps (before after : list string) (r : string) e :
  Forall (λ r', is_Some (match dep_of p r' with inr x => Some x | inl _ => None end))
         before →
  dep_of p r = inl e →
  convert p deps (before ++ r :: after) = inl e.
Proof.
  intros Hb Hr. revert deps. induction Hb as [|r' l Hr' Hl IH]; simpl; intros deps.
  - by rewrite Hr.
  - destruct (dep_of p r') as [e'|[n d]]; [by destruct Hr'|]. apply IH.
Qed.

Lemma for_each_log {A} (body : A → M unit) (f : A → list string) (l : list A) :
  (∀ x, x ∈ l → body x = (f x, inr tt)) →
  for_each body l = (x ← l; f x, inr tt).
Proof.
  induction l as [|x l IH]; [done|]. intros Hl. simpl.
  rewrite (Hl x) by apply list_elem_of_here. simpl.
  rewrite IH; [done|]. intros y Hy. apply Hl. by apply list_elem_of_further.
Qed.

Lemma sorted_keys_elem deps (n : string) :
  n ∈ sorted_keys deps ↔ is_Some (deps !! n).
Proof.
  unfold sorted_keys. rewrite merge_sort_Permutation.
  by rewrite elem_of_elements, elem_of_dom.
Qed.

(** C2. A specifier made of a name and a clause >= v is stored under the
    normalized name, as the dependency of the package, with the build and
    run types, on the spec whose text is the normalized name with the
    range @v: behind it; a clause == v gives @v, and a bare name gives the
    normalized name and nothing else. The normalized name is the name in
    lower case behind r-, but r alone for R. When [Spec] refuses the text,
    its error leaves the conversion. So R (>= 2.15.0) is stored under r
    with the spec r@2.15.0:, xtable under r-xtable with the spec r-xtable,
    and dplyr (== 1.1.0) under r-dplyr with the spec r-dplyr@1.1.0. *)
Theorem specifier_normalization p :
  (∀ name ver,
     name ≠ "" → all_chars isnamechar name = true →
     ver ≠ "" → all_chars isverchar ver = true →
     let key :=
       if decide (name = "R" ∨ name = "r") then "r" else "r-" +:+ lower name in
     dep_of p (name +:+ " (>= " +:+ ver +:+ ")")
     = match mkSpec (key +:+ "@" +:+ ver +:+ ":") with
       | Some s => inr (key, MkDependency p s (Z.lor BUILD RUN))
       | None => inl (SpecError (key +:+ "@" +:+ ver +:+ ":"))
       end
     ∧ dep_of p (name +:+ " (== " +:+ ver +:+ ")")
       = match mkSpec (key +:+ "@" +:+ ver) with
         | Some s => inr (key, MkDependency p s (Z.lor BUILD RUN))
         | None => inl (SpecError (key +:+ "@" +:+ ver))
         end
     ∧ dep_of p name
       = match mkSpec key with
         | Some s => inr (key, MkDependency p s (Z.lor BUILD RUN))
         | None => inl (SpecError key)
         end)
  ∧ normalized_name "R" = "r"
  ∧ (∀ name, name ≠ "R" → name ≠ "r" →
       normalized_name name = "r-" +:+ lower name)
  ∧ dep_of p "R (>= 2.15.0)"
    = match mkSpec "r@2.15.0:" with
      | Some s => inr ("r", MkDependency p s (Z.lor BUILD RUN))
      | None => inl (SpecError "r@2.15.0:")
      end
  ∧ dep_of p "xtable"
    = match mkSpec "r-xtable" with
      | Some s => inr ("r-xtable", MkDependency p s (Z.lor BUILD RUN))
      | None => inl (SpecError "r-xtable")
      end
  ∧ dep_of p "dplyr (== 1.1.0)"
    = match mkSpec "r-dplyr@1.1.0" with
      | Some s => inr ("r-dplyr", MkDependency p s (Z.lor BUILD RUN))
      | None => inl (SpecError "r-dplyr@1.1.0")
      end.
Proof.
  split_and!; [|done| |done..].
  - intros name ver Hne Hname Hv Hver key.
    assert (key = normalized_name name) as -> by done.
    destruct (verchar_facts ver Hver) as (_ & _ & Hnl).
    split_and!.
    + rewrite (dep_of_named p _ name) by by apply search_name_app.
      change (name +:+ " (>= " +:+ ver +:+ ")")
        with (name +:+ " (" +:+ (">= " +:+ ver) +:+ ")").
      rewrite search_paren_clause; [|done|by rewrite all_chars_app, Hnl].
      by rewrite sub_lower_bound.
    + rewrite (dep_of_named p _ name) by by apply search_name_app.
      change (name +:+ " (== " +:+ ver +:+ ")")
        with (name +:+ " (" +:+ ("== " +:+ ver) +:+ ")").
      rewrite search_paren_clause; [|done|by rewrite all_chars_app, Hnl].
      by rewrite sub_pinned.
    + rewrite (dep_of_named p _ name).
      * by rewrite search_paren_name.
      * rewrite <-(app_empty_r name) at 1. by apply search_name_app.
  - intros name HR Hr. unfold normalized_name.
    rewrite decide_False; [done|]. by intros [?|?].
Qed.

(** C6. The conversion of a specifier raises the assertion error, with
    the message Unable to find package name in and the specifier, exactly
    when the specifier has no leading identifier. The error leaves
    [install]: when the specifiers before it are converted, no line is
    written and R is not called. *)
Theorem name_extraction_failure :
  (∀ p (r_dep : string),
     ((∃ msg, dep_of p r_dep = inl (AssertionError msg))
      ↔ no_leading_identifier r_dep = true)
     ∧ (no_leading_identifier r_dep = true →
        dep_of p r_dep
        = inl (AssertionError ("Unable to find package name in " +:+ r_dep))))
  ∧ (∀ env parse text before (r_dep : string) after,
       pycran env = Some parse → description env = Some text →
       read_r_deps parse text = inr (before ++ r_dep :: after) →
       Forall (λ r, ∃ x, dep_of (pkg env) r = inr x) before →
       no_leading_identifier r_dep = true →
       install env
       = ([], inl (AssertionError ("Unable to find package name in " +:+ r_dep)))).
Proof.
  split.
  - intros p r_dep. split; [|apply dep_of_unnamed].
    split; [|intros Hno; eexists; by apply dep_of_unnamed].
    intros [msg Hd]. apply search_name_none.
    destruct (search_name r_dep) as [name|] eqn:Hname; [|done].
    rewrite (dep_of_named _ _ _ Hname) in Hd.
    destruct (search_paren r_dep); by apply new_dep_no_assertion in Hd.
  - intros env parse text before r_dep after Hpy Htext Hread Hbefore Hno.
    unfold install, verify. rewrite Hpy, Htext. simpl. rewrite Hread. simpl.
    rewrite (convert_raises _ _ _ _ _
               (AssertionError ("Unable to find package name in " +:+ r_dep))).
    + done.
    + eapply Forall_impl; [done|]. intros r [x ->]. by eexists.
    + by apply dep_of_unnamed.
Qed.

(** C7. Without pycran the [try] block ends at the import: [install]
    writes the one debug line and calls R with its fixed arguments, the
    configure arguments and variables of the builder when there are any,
    the library directory and the source path. *)
Theorem install_without_pycran (env : Env) :
  pycran env = None →
  install env
  = (["R package dependency verification requires pycran"],
     inr (["--vanilla"; "CMD"; "INSTALL"]
          ++ (if decide (configure_args env = []) then []
              else ["--configure-args=" +:+ join " " (configure_args env)])
          ++ (if decide (configure_vars env = []) then []
              else ["--configure-vars=" +:+ join " " (configure_vars env)])
          ++ ["--library=" +:+ r_lib_dir env; source_path env])).
Proof. intros Hpy. unfold install, verify. by rewrite Hpy. Qed.

(** C9. When several specifiers are stored under one name, [deps] holds
    under that name the dependency of the last of them, and the earlier
    ones leave no trace: without them [deps] is the same. *)
Theorem last_specifier_wins p :
  (∀ deps0 deps (before after : list string) (r_dep n : string) d,
     convert p deps0 (before ++ r_dep :: after) = inr deps →
     dep_of p r_dep = inr (n, d) →
     Forall (λ r, ∀ x, dep_of p r = inr x → x.1 ≠ n) after →
     deps !! n = Some d)
  ∧ (∀ deps0 (before mid after : list string) (r1 r2 n : string) d1 d2,
       dep_of p r1 = inr (n, d1) → dep_of p r2 = inr (n, d2) →
       convert p deps0 (before ++ r1 :: mid ++ r2 :: after)
       = convert p deps0 (before ++ mid ++ r2 :: after)).
Proof.
  split.
  - intros deps0 deps before after r_dep n d Hc Hd Hafter.
    rewrite convert_app in Hc.
    destruct (convert p deps0 before) as [e|deps1]; [done|].
    simpl in Hc. rewrite Hd in Hc.
    rewrite (convert_lookup_other _ _ _ _ _ Hafter Hc).
    apply lookup_insert_eq.
  - intros deps0 before mid after r1 r2 n d1 d2 H1 H2.
    rewrite !convert_app.
    destruct (convert p deps0 before) as [e|deps1]; [done|].
    simpl. rewrite H1. by eapply convert_overwrite.
Qed.

(** C1. The last loop goes through the names of [deps] in increasing
    order, each name once, and writes one line for each dependency whose
    verdict is missing or weaker and none for one that is satisfied. The
    verdict is missing exactly when [merged] has no rule under the name,
    weaker exactly when it has one whose spec does not satisfy the spec of
    the dependency, and satisfied otherwise. *)
Theorem reconciliation_report (version : string) deps merged :
  report version deps merged
  = (verdict_lines version deps merged (sorted_keys deps), inr tt)
  ∧ StronglySorted String.le (sorted_keys deps)
  ∧ NoDup (sorted_keys deps)
  ∧ (∀ n, n ∈ sorted_keys deps ↔ is_Some (deps !! n))
  ∧ (∀ n d,
       (verdict_of merged n d = Missing ↔ merged !! n = None)
       ∧ (verdict_of merged n d = Weaker
          ↔ ∃ m, merged !! n = Some m
                 ∧ satisfies (dep_spec m) (dep_spec d) = false)
       ∧ (verdict_of merged n d = Satisfied
          ↔ ∃ m, merged !! n = Some m
                 ∧ satisfies (dep_spec m) (dep_spec d) = true)).
Proof.
  split_and!.
  - unfold report, verdict_lines. apply for_each_log.
    intros n [d Hd]%sorted_keys_elem. unfold check_dep, verdict_of.
    rewrite Hd. simpl. rewrite app_nil_r.
    destruct (merged !! n) as [m|]; [|done].
    by destruct (satisfies (dep_spec m) (dep_spec d)).
  - apply StronglySorted_merge_sort; apply _.
  - unfold sorted_keys. rewrite merge_sort_Permutation. apply NoDup_elements.
  - apply sorted_keys_elem.
  - intros n d. unfold verdict_of. destruct (merged !! n) as [m|].
    + destruct (satisfies (dep_spec m) (dep_spec d)) eqn:Hs;
        split_and!; split; try done; try (intros (? & [= <-] & ?); congruence);
        intros _; by exists m.
    + split_and!; split; try done; by intros (? & ? & ?).
Qed.

End BuilderFacts.

(** C5. The filter of the two list comprehensions tests the fragment
    before it is trimmed: in the value A, , B the fragment between the
    commas is one space, it is kept and trimmed to the empty specifier, and
    the name extraction fails on it. *)
Theorem blank_fragment_reaches_name_extraction :
  specifiers "A, , B" = ["A"; ""; "B"]
  ∧ install (text_env "Imports: A, , B")
    = ([], inl (AssertionError "Unable to find package name in ")).
Proof. split; by vm_compute. Qed.

(** ** The theorems at concrete inputs *)

Lemma state_after_A_reachable : reachable state_after_A.
Proof. exists ["A: 1"], []. reflexivity. Defined.

Lemma state_after_Imports_reachable : reachable state_after_Imports.
Proof. exists ["Imports: A,"], []. reflexivity. Defined.

Lemma repeated_field_starts_new_record_witness :
  process_line state_after_A "A: 2"
  = inr (State {[ "A" ]} [("A", "2")], [[("A", "1")]]).
Proof.
  apply (proj1 repeated_field_starts_new_record state_after_A "A: 2").
  - exact state_after_A_reachable.
  - reflexivity.
  - apply (bool_decide_unpack _). vm_compute. exact I.
Defined.

Lemma appended_line_extends_last_field_witness :
  process_line state_after_Imports "    B (>= 1.0)"
  = inr (State (fields state_after_Imports)
               [("Imports", "A," +:+ " " +:+ "B (>= 1.0)")], []).
Proof.
  apply (proj1 (proj1 appended_line_extends_last_field state_after_Imports
                  "    B (>= 1.0)" state_after_Imports_reachable eq_refl)
           [] "Imports" "A,").
  reflexivity.
Defined.

Lemma specifier_normalization_witness :
  @dep_of text_spack tt "dplyr (>= 1.1.0)"
  = inr ("r-dplyr", @MkDependency text_spack tt "r-dplyr@1.1.0:" 5)
  ∧ @dep_of text_spack tt "dplyr (== 1.1.0)"
    = inr ("r-dplyr", @MkDependency text_spack tt "r-dplyr@1.1.0" 5)
  ∧ @dep_of text_spack tt "dplyr"
    = inr ("r-dplyr", @MkDependency text_spack tt "r-dplyr" 5).
Proof.
  apply (proj1 (@specifier_normalization text_spack tt) "dplyr" "1.1.0").
  - discriminate.
  - reflexivity.
  - discriminate.
  - reflexivity.
Defined.

Lemma name_extraction_failure_witness :
  install (text_env "Imports: A, (>= 1.0)")
  = ([], inl (AssertionError "Unable to find package name in (>= 1.0)")).
Proof.
  apply (proj2 name_extraction_failure (text_env "Imports: A, (>= 1.0)")
           parse_description "Imports: A, (>= 1.0)" ["A"] "(>= 1.0)" []).
  - reflexivity.
  - reflexivity.
  - reflexivity.
  - repeat constructor. eexists. reflexivity.
  - reflexivity.
Defined.

Lemma install_without_pycran_witness :
  install text_env_no_pycran
  = (["R package dependency verification requires pycran"],
     inr ["--vanilla"; "CMD"; "INSTALL"; "--configure-args=--with-x";
          "--library=/r/lib"; "/stage/src"]).
Proof. apply (install_without_pycran text_env_no_pycran). reflexivity. Defined.

Lemma last_specifier_wins_witness :
  ∃ deps,
    @convert text_spack tt ∅ (["A (>= 1.0)"] ++ "a (>= 2.0)" :: ["B"]) = inr deps
    ∧ deps !! "r-a" = Some (@MkDependency text_spack tt "r-a@2.0:" 5).
Proof.
  eexists. split; [reflexivity|].
  eapply (proj1 (@last_specifier_wins text_spack tt) ∅ _ ["A (>= 1.0)"] ["B"] "a (>= 2.0)").
  - reflexivity.
  - reflexivity.
  - repeat constructor. intros x [= <-]. discriminate.
Defined.

(** The last loop on three dependencies: r-a has a rule with another
    spec, r-b has none, r-c has one with the same spec. *)
Example report_example :
  @report text_spack "1.0"
    (<["r-c" := MkDependency tt "r-c" 5]>
       (<["r-a" := MkDependency tt "r-a@2.0:" 5]>
          (<["r-b" := MkDependency tt "r-b" 5]> ∅)))
    (<["r-a" := MkDependency tt "r-a@1.0:" 5]>
       (<["r-c" := MkDependency tt "r-c" 5]> ∅))
  = ([depends_on_line "1.0" (MkDependency tt "r-a@2.0:" 5);
      depends_on_line "1.0" (MkDependency tt "r-b" 5)], inr tt).
Proof. by vm_compute. Qed.

(** [install] on a DESCRIPTION file with a continued Imports field. *)
Example install_example :
  (install (text_env ("Package: x" +:+ nl +:+ "Imports: A," +:+ nl
                      +:+ "    R (>= 2.15.0)"))).2
  = inr ["--vanilla"; "CMD"; "INSTALL"; "--library=/r/lib"; "/stage/src"]
  ∧ length (install (text_env ("Package: x" +:+ nl +:+ "Imports: A," +:+ nl
                               +:+ "    R (>= 2.15.0)"))).1 = 2.
Proof. split; by vm_compute. Qed.

(** * Further properties of the parser *)
Section ParserMore.
Implicit Types (st : state) (line : string).

Lemma field_line_excluded line :
  strip line = "" ∨ contains ":" line = false ∨ candidate_field line = ""
  ∨ starts_nonalpha (candidate_field line) = true →
  field_line line = false.
Proof.
  unfold field_line. intros [E|[E|[E|E]]].
  - destruct (contains ":" line) eqn:Hc; [|done].
    by apply colon_not_blank in Hc.
  - by rewrite E.
  - rewrite E. apply andb_false_r.
  - destruct (candidate_field line) as [|c f]; [apply andb_false_r|].
    simpl in *. apply negb_true_iff in E as ->. apply andb_false_r.
Qed.

(** What one turn of the loop does when it does not raise. *)
Lemma process_line_summary st line st' ys :
  wf st → process_line st line = inr (st', ys) →
  (field_line line = false ∧ ys = []
   ∧ keys (package st') = keys (package st))
  ∨ (field_line line = true ∧ (candidate_field line ∉ keys (package st))
     ∧ ys = []
     ∧ package st'
       = package st ++ [(candidate_field line, candidate_value line)])
  ∨ (field_line line = true ∧ candidate_field line ∈ keys (package st)
     ∧ ys = [package st]
     ∧ package st' = [(candidate_field line, candidate_value line)]).
Proof.
  intros [Hnd Hf] Hp.
  destruct (line_cases line) as [E|[[E Hc]|[[Hc E]|[[Hc E]|E]]]].
  - rewrite process_line_blank in Hp by done. simplify_eq. left.
    split_and!; [|done..]. apply field_line_excluded. auto.
  - rewrite process_line_no_colon in Hp by done. simplify_eq. left.
    split_and!; [|done|by apply keys_append]. apply field_line_excluded. auto.
  - by rewrite process_line_empty_name in Hp.
  - rewrite process_line_nonalpha in Hp by done. simplify_eq. left.
    split_and!; [|done|by apply keys_append]. apply field_line_excluded. auto.
  - destruct (decide (candidate_field line ∈ fields st)) as [Hin|Hin].
    + rewrite process_line_repeated in Hp by done. simplify_eq.
      right; right. apply Hf in Hin. split_and!; [done..| |done].
      destruct (package st); [by apply elem_of_nil in Hin|done].
    + rewrite process_line_new in Hp by done. simplify_eq.
      right; left. rewrite Hf in Hin. split_and!; [done..|]. simpl.
      rewrite dict_set_fresh by done.
      unfold candidate_value at 1. by rewrite strip_idem.
Qed.

Lemma field_line_filter_cons (line : string) (rest : list string) :
  filter (λ l, field_line l = true) (line :: rest)
  = (if field_line line then [line] else [])
    ++ filter (λ l, field_line l = true) rest.
Proof.
  rewrite filter_cons. destruct (field_line line) eqn:E.
  - by rewrite decide_True.
  - by rewrite decide_False.
Qed.

(** The field names of the records yielded and of the record in progress
    are the names of the field lines read, in their order. *)
Lemma loop_keys st lines out st' :
  wf st → loop st lines = (out, inr st') →
  concat (keys <$> out) ++ keys (package st')
  = keys (package st)
    ++ (candidate_field <$> filter (λ l, field_line l = true) lines).
Proof.
  revert st out. induction lines as [|line rest IH]; simpl; intros st out Hwf Hl.
  - simplify_eq. simpl. by rewrite app_nil_r.
  - destruct (process_line st line) as [e|[st1 ys]] eqn:Hp; [done|].
    destruct (loop st1 rest) as [out1 r] eqn:Hl1. simplify_eq.
    pose proof (process_line_wf _ _ _ _ Hwf Hp) as Hwf1.
    specialize (IH _ _ Hwf1 Hl1). rewrite field_line_filter_cons.
    destruct (process_line_summary _ _ _ _ Hwf Hp)
      as [(Hfl & -> & Hk)|[(Hfl & Hnew & -> & Hpk)|(Hfl & Hin & -> & Hpk)]];
      rewrite Hfl, !fmap_app, concat_app, <-!app_assoc, IH.
    + by rewrite Hk.
    + by rewrite Hpk, keys_snoc, <-app_assoc.
    + rewrite Hpk. simpl. by rewrite app_nil_r.
Qed.

(** X1. When the parser ends without an exception, the field names of
    the records it yields, read in order, are the names of the field lines
    of the text in their order: no field line is lost or moved. *)
Theorem parse_description_keeps_field_names (data : string) :
  (parse_description data).2 = None →
  concat (keys <$> (parse_description data).1)
  = candidate_field <$> filter (λ l, field_line l = true) (splitlines data).
Proof.
  unfold parse_description.
  destruct (loop init (splitlines data)) as [out [e|st]] eqn:Hl; [done|].
  intros _. simpl. pose proof (loop_keys _ _ _ _ wf_init Hl) as Hk.
  simpl in Hk. rewrite <-Hk, fmap_app, concat_app. f_equal.
  case_decide as E; [by rewrite E|]. simpl. by rewrite app_nil_r.
Qed.

Lemma loop_no_colon (lines : list string) :
  Forall (λ l, contains ":" l = false) lines →
  loop init lines = ([], inr init).
Proof.
  induction 1 as [|line rest Hc _ IH]; [done|]. simpl.
  destruct (decide (strip line = "")) as [E|E].
  - rewrite process_line_blank by done. by rewrite IH.
  - rewrite process_line_no_colon by done. simpl. rewrite append_nil.
    fold init. by rewrite IH.
Qed.

Lemma splitlines_contains (c : ascii) (s line : string) :
  line ∈ splitlines s → contains c line = true → contains c s = true.
Proof.
  remember (String.length s) as n eqn:Hn. revert s line Hn.
  induction n as [n IH] using lt_wf_ind. intros s line Hn.
  destruct s as [|a s]; [by intros ?%elem_of_nil|]. simpl in Hn.
  simpl. destruct (islinebreak a) eqn:Ha.
  - intros [->|Hin]%elem_of_cons; [done|]. intros Hc.
    assert (contains c s = true) as Hs.
    { destruct s as [|a' s']; [by apply elem_of_nil in Hin|].
      destruct ((ord a =? 13)%N && (ord a' =? 10)%N).
      - simpl. case_decide; [done|].
        apply (IH (String.length s')) with (line := line); [simpl in *; lia|done..].
      - apply (IH (String.length (String a' s'))) with (line := line);
          [simpl in *; lia|done..]. }
    case_decide; done.
  - destruct (splitlines s) as [|l ls] eqn:Es.
    + intros ->%list_elem_of_singleton. simpl.
      case_decide; [done|]. done.
    + intros [->|Hin]%elem_of_cons Hc.
      * simpl in Hc. case_decide; [done|].
        apply (IH (String.length s)) with (line := l); [lia|done| |done].
        rewrite Es. apply list_elem_of_here.
      * case_decide; [done|].
        apply (IH (String.length s)) with (line := line); [lia|done| |done].
        rewrite Es. by apply list_elem_of_further.
Qed.

(** X2. A text without any colon yields no record, and the parser does
    not raise on it. *)
Theorem parse_description_no_colon (data : string) :
  contains ":" data = false → parse_description data = ([], None).
Proof.
  intros Hc. unfold parse_description. rewrite loop_no_colon; [done|].
  apply Forall_forall. intros line Hin.
  destruct (contains ":" line) eqn:E; [|done].
  by rewrite (splitlines_contains _ _ _ Hin E) in Hc.
Qed.

Lemma loop_raises st lines e :
  (loop st lines).2 = inl e
  ↔ e = IndexError
    ∧ Exists (λ l, contains ":" l = true ∧ candidate_field l = "") lines.
Proof.
  revert st. induction lines as [|line rest IH]; simpl; intros st.
  - split; [done|]. by intros [_ ?%Exists_nil].
  - destruct (process_line st line) as [e'|[st1 ys]] eqn:Hp.
    + apply process_line_raises in Hp as (-> & Hc & E). simpl. split.
      * intros [= <-]. split; [done|]. by left.
      * by intros [-> _].
    + specialize (IH st1). destruct (loop st1 rest) as [out r]. simpl in *.
      rewrite IH. split; intros [-> Hex]; (split; [done|]).
      * by right.
      * apply Exists_cons in Hex as [[Hc E]|?]; [|done].
        by rewrite process_line_empty_name in Hp.
Qed.

(** X3. The parser raises exactly when some line of the text has a colon
    with nothing but white space before it, and the exception is then
    IndexError; on every other text it runs to the end. *)
Theorem parse_description_raises_iff (data : string) (e : exn) :
  (parse_description data).2 = Some e
  ↔ e = IndexError
    ∧ ∃ line, line ∈ splitlines data
              ∧ contains ":" line = true ∧ candidate_field line = "".
Proof.
  pose proof (loop_raises init (splitlines data) e) as Hl.
  rewrite Exists_exists in Hl. rewrite <-Hl. unfold parse_description.
  destruct (loop init (splitlines data)) as [out [e'|st]]; simpl.
  - split; by intros [= ->].
  - done.
Qed.

(** X4. Blank lines change nothing: from every state the loop yields the
    same records and ends in the same way when the blank lines are taken
    out, so a blank line does not close a record. *)
Theorem loop_ignores_blank_lines st (lines : list string) :
  loop st lines = loop st (filter (λ l, strip l ≠ "") lines).
Proof.
  revert st. induction lines as [|line rest IH]; [done|]. intros st.
  rewrite filter_cons. destruct (decide (strip line ≠ "")) as [E|E]; simpl.
  - destruct (process_line st line) as [e|[st1 ys]]; [done|]. by rewrite IH.
  - assert (strip line = "") as E' by by destruct (decide (strip line = "")).
    rewrite process_line_blank by done. rewrite IH.
    by destruct (loop st (filter (λ l, strip l ≠ "") rest)).
Qed.

Lemma loop_distinct_fields st (lines : list string) :
  wf st →
  Forall (λ l, field_line l = true) lines →
  NoDup (candidate_field <$> lines) →
  (∀ l, l ∈ lines → candidate_field l ∉ keys (package st)) →
  ∃ st', loop st lines = ([], inr st')
         ∧ package st'
           = package st
             ++ ((λ l, (candidate_field l, candidate_value l)) <$> lines).
Proof.
  intros Hwf Hfl. revert st Hwf.
  induction Hfl as [|line rest Hline _ IH]; intros st Hwf Hnd Hnew.
  - exists st. by rewrite app_nil_r.
  - rewrite fmap_cons in Hnd. apply NoDup_cons in Hnd as [Hnotin Hnd].
    assert (candidate_field line ∉ keys (package st)) as Hk
      by apply Hnew, list_elem_of_here.
    pose proof Hwf as [_ Hf].
    pose proof (process_line_new st line Hline) as Hp.
    rewrite Hf in Hp. specialize (Hp Hk).
    rewrite dict_set_fresh in Hp by done.
    unfold candidate_value in Hp at 1. rewrite strip_idem in Hp.
    fold (candidate_value line) in Hp.
    pose proof (process_line_wf _ _ _ _ Hwf Hp) as Hwf1.
    destruct (IH _ Hwf1 Hnd) as (st' & Hl & Hpk).
    { intros l Hl. simpl. rewrite keys_snoc, elem_of_app.
      intros [?|Heq%list_elem_of_singleton].
      - apply (Hnew l); [by apply list_elem_of_further|done].
      - apply Hnotin. rewrite <-Heq. apply list_elem_of_fmap. by exists l. }
    exists st'. simpl. rewrite Hp, Hl. split; [done|].
    rewrite Hpk. simpl. by rewrite <-app_assoc.
Qed.

(** X5. A text whose lines are all field lines with different names
    yields one record: the fields of the lines, in their order, each with
    its trimmed value. *)
Theorem parse_description_distinct_fields (data : string) :
  splitlines data ≠ [] →
  Forall (λ l, field_line l = true) (splitlines data) →
  NoDup (candidate_field <$> splitlines data) →
  parse_description data
  = ([(λ l, (candidate_field l, candidate_value l)) <$> splitlines data], None).
Proof.
  intros Hne Hfl Hnd. unfold parse_description.
  destruct (loop_distinct_fields init (splitlines data) wf_init Hfl Hnd)
    as (st' & -> & Hpk); [intros l _; apply not_elem_of_nil|].
  simpl in Hpk. rewrite Hpk. simpl.
  destruct (splitlines data); [done|]. by rewrite decide_False.
Qed.

Lemma candidate_field_good (line : string) :
  field_line line = true → good_key (candidate_field line).
Proof.
  intros [_ Ha]%andb_prop. split; [done|].
  unfold candidate_field. apply strip_idem.
Qed.

Lemma loop_good_keys st (lines : list string) out r :
  wf st → Forall good_key (keys (package st)) →
  loop st lines = (out, r) →
  Forall (λ rec, NoDup (keys rec) ∧ Forall good_key (keys rec)) out
  ∧ ∀ st', r = inr st' → wf st' ∧ Forall good_key (keys (package st')).
Proof.
  revert st out r.
  induction lines as [|line rest IH]; simpl; intros st out r Hwf Hgood Hl.
  - simplify_eq. split; [constructor|]. by intros st' [= <-].
  - destruct (process_line st line) as [e|[st1 ys]] eqn:Hp.
    { simplify_eq. split; [constructor|done]. }
    destruct (loop st1 rest) as [out1 r1] eqn:Hl1. simplify_eq.
    pose proof (process_line_wf _ _ _ _ Hwf Hp) as Hwf1.
    assert (Forall good_key (keys (package st1))
            ∧ Forall (λ rec, NoDup (keys rec) ∧ Forall good_key (keys rec)) ys)
      as [Hgood1 Hys].
    { destruct (process_line_summary _ _ _ _ Hwf Hp)
        as [(Hfl & -> & Hk)|[(Hfl & Hnew & -> & Hpk)|(Hfl & Hin & -> & Hpk)]].
      - by rewrite Hk.
      - rewrite Hpk, keys_snoc. split; [|constructor].
        apply Forall_app. split; [done|].
        repeat constructor; by apply candidate_field_good.
      - rewrite Hpk. split.
        + repeat constructor; by apply candidate_field_good.
        + repeat constructor; [by destruct Hwf|done]. }
    destruct (IH _ _ _ Hwf1 Hgood1 Hl1) as [Hout Hr].
    split; [by apply Forall_app|done].
Qed.

(** X6. In every record the parser yields, also before an exception, the
    field names are different from one another, and each starts with a
    letter and has no white space around it. *)
Theorem parse_description_field_names (data : string) :
  Forall (λ rec, NoDup (keys rec) ∧ Forall good_key (keys rec))
         (parse_description data).1.
Proof.
  unfold parse_description.
  destruct (loop init (splitlines data)) as [out r] eqn:Hl.
  destruct (loop_good_keys _ _ _ _ wf_init (Forall_nil_2 _) Hl) as [Hout Hr].
  destruct r as [e|st]; simpl; [done|].
  apply Forall_app. split; [done|].
  destruct (Hr st eq_refl) as [[Hnd _] Hgood].
  case_decide; by repeat constructor.
Qed.

Lemma chained_snoc prev (out : list (dict string)) (rec : dict string) :
  chained prev out →
  (∀ before, from_option Some prev (last out) = Some before →
     ∃ k, head (keys rec) = Some k ∧ k ∈ keys before) →
  chained prev (out ++ [rec]).
Proof.
  revert prev. induction out as [|r out IH]; simpl; intros prev Hout Hlink.
  - split; [|done]. destruct prev as [before|]; [|done]. by apply Hlink.
  - destruct Hout as [Hr Hout]. split; [done|]. apply IH; [done|].
    intros before Hb. apply Hlink. rewrite last_cons.
    by destruct (last out).
Qed.

Lemma loop_chained st (lines : list string) prev out r :
  wf st →
  (∀ before, prev = Some before →
     ∃ k, head (keys (package st)) = Some k ∧ k ∈ keys before) →
  loop st lines = (out, r) →
  chained prev out
  ∧ ∀ st' before,
      r = inr st' → from_option Some prev (last out) = Some before →
      ∃ k, head (keys (package st')) = Some k ∧ k ∈ keys before.
Proof.
  revert st prev out r.
  induction lines as [|line rest IH]; simpl; intros st prev out r Hwf Hlink Hl.
  - simplify_eq. split; [done|]. intros st' before [= <-] Hb. by apply Hlink.
  - destruct (process_line st line) as [e|[st1 ys]] eqn:Hp.
    { simplify_eq. by split. }
    destruct (loop st1 rest) as [out1 r1] eqn:Hl1. simplify_eq.
    pose proof (process_line_wf _ _ _ _ Hwf Hp) as Hwf1.
    destruct (process_line_summary _ _ _ _ Hwf Hp)
      as [(Hfl & -> & Hk)|[(Hfl & Hnew & -> & Hpk)|(Hfl & Hin & -> & Hpk)]].
    + apply (IH _ prev _ _ Hwf1); [|done]. by rewrite Hk.
    + apply (IH _ prev _ _ Hwf1); [|done].
      intros before Hb. destruct (Hlink _ Hb) as (k & Hk & Hin).
      exists k. split; [|done]. rewrite Hpk, keys_snoc.
      by destruct (keys (package st)).
    + destruct (IH st1 (Some (package st)) out1 r Hwf1) as [Hout Hr]; [|done|].
      { intros before [= <-]. exists (candidate_field line).
        by rewrite Hpk. }
      simpl. split.
      * split; [|done]. destruct prev as [before|]; [|done]. by apply Hlink.
      * intros st' before Hst Hb. apply (Hr st' before Hst).
        rewrite last_cons in Hb. by destruct (last out1).
Qed.

(** X7. The parser cuts records only where a field name comes again:
    each record it yields after the first one starts with a field name
    that the record before it holds. *)
Theorem parse_description_records_chained (data : string) :
  chained None (parse_description data).1.
Proof.
  unfold parse_description.
  destruct (loop init (splitlines data)) as [out r] eqn:Hl.
  destruct (loop_chained _ _ None _ _ wf_init ltac:(done) Hl) as [Hout Hr].
  destruct r as [e|st]; simpl; [done|].
  case_decide as E; [by rewrite app_nil_r|].
  apply chained_snoc; [done|]. intros before Hb. by apply (Hr st).
Qed.

Lemma rstrip_app_r (s t : string) :
  t ≠ "" → rstrip t = t → rstrip (s +:+ t) = s +:+ t.
Proof.
  intros Hne Ht. induction s as [|c s IH]; [done|].
  rewrite app_cons. simpl. rewrite IH.
  destruct (s +:+ t) eqn:E; [|done].
  destruct s; [by rewrite app_empty_l in E|by rewrite app_cons in E].
Qed.

Lemma rstrip_strip (s : string) : rstrip (strip s) = strip s.
Proof. apply rstrip_idem. Qed.

Lemma append_values (P : string → Prop) (d : dict string) (x : string) :
  NoDup (keys d) → (∀ v, P v → P (v +:+ x)) →
  Forall (λ kv, P kv.2) d → Forall (λ kv, P kv.2) (append d x).
Proof.
  intros Hnd Hx. destruct d as [|[k v] d _] using rev_ind; [done|].
  rewrite append_snoc by done. rewrite !Forall_app, !Forall_singleton.
  intros [? ?]. split; [done|]. by apply Hx.
Qed.

Lemma process_line_values st line st' ys :
  wf st → Forall (λ kv, rstrip kv.2 = kv.2) (package st) →
  process_line st line = inr (st', ys) →
  Forall (λ kv, rstrip kv.2 = kv.2) (package st')
  ∧ Forall (Forall (λ kv, rstrip kv.2 = kv.2)) ys.
Proof.
  intros [Hnd Hf] Hv Hp.
  assert (strip line ≠ "" →
          Forall (λ kv, rstrip kv.2 = kv.2)
                 (append (package st) (" " +:+ strip line))) as Happ.
  { intros Hne. apply (append_values (λ v, rstrip v = v)); [done| |done].
    intros v _. apply rstrip_app_r; [done|].
    change (" " +:+ strip line) with (String " " (strip line)).
    rewrite <-(rstrip_strip line) at 2. simpl.
    by destruct (rstrip (strip line)) eqn:E; [rewrite rstrip_strip in E|]. }
  destruct (line_cases line) as [E|[[E Hc]|[[Hc E]|[[Hc E]|E]]]].
  - rewrite process_line_blank in Hp by done. by simplify_eq.
  - rewrite process_line_no_colon in Hp by done. simplify_eq. auto.
  - by rewrite process_line_empty_name in Hp.
  - rewrite process_line_nonalpha in Hp by done. simplify_eq.
    split; [|done]. by apply Happ, colon_not_blank.
  - destruct (decide (candidate_field line ∈ fields st)) as [Hin|Hin].
    + rewrite process_line_repeated in Hp by done. simplify_eq. split.
      * repeat constructor. apply rstrip_strip.
      * case_decide; by repeat constructor.
    + rewrite process_line_new in Hp by done. simplify_eq.
      split; [|done]. simpl. rewrite dict_set_fresh by by rewrite <-Hf.
      apply Forall_app. split; [done|]. repeat constructor. apply rstrip_strip.
Qed.

Lemma loop_values st (lines : list string) out r :
  wf st → Forall (λ kv, rstrip kv.2 = kv.2) (package st) →
  loop st lines = (out, r) →
  Forall (Forall (λ kv, rstrip kv.2 = kv.2)) out
  ∧ ∀ st', r = inr st' → Forall (λ kv, rstrip kv.2 = kv.2) (package st').
Proof.
  revert st out r.
  induction lines as [|line rest IH]; simpl; intros st out r Hwf Hv Hl.
  - simplify_eq. split; [constructor|]. by intros st' [= <-].
  - destruct (process_line st line) as [e|[st1 ys]] eqn:Hp.
    { simplify_eq. split; [constructor|done]. }
    destruct (loop st1 rest) as [out1 r1] eqn:Hl1. simplify_eq.
    pose proof (process_line_wf _ _ _ _ Hwf Hp) as Hwf1.
    destruct (process_line_values _ _ _ _ Hwf Hv Hp) as [Hv1 Hys].
    destruct (IH _ _ _ Hwf1 Hv1 Hl1) as [Hout Hr].
    split; [by apply Forall_app|done].
Qed.

(** X23. No value in a record the parser yields ends with white space:
    the value of a field line is trimmed, and what a continuation line
    adds ends with the last character of the trimmed line. *)
Theorem parse_description_values_rstripped (data : string) :
  Forall (Forall (λ kv : string * string, rstrip kv.2 = kv.2))
         (parse_description data).1.
Proof.
  unfold parse_description.
  destruct (loop init (splitlines data)) as [out r] eqn:Hl.
  destruct (loop_values _ _ _ _ wf_init (Forall_nil_2 _) Hl) as [Hout Hr].
  destruct r as [e|st]; simpl; [done|].
  apply Forall_app. split; [done|].
  case_decide; repeat constructor. by apply Hr.
Qed.

End ParserMore.

(** * Further properties of the builder *)
Section BuilderMore.
Context `{Spack}.
Implicit Types (p : PkgT) (deps merged : gmap string Dependency).

Lemma split_no_sep (c : ascii) (s frag : string) :
  frag ∈ split c s → contains c frag = false.
Proof.
  revert frag. induction s as [|a s IH]; simpl; intros frag.
  - by intros ->%list_elem_of_singleton.
  - case_decide as Ha.
    + intros [->|Hin]%elem_of_cons; [done|]. by apply IH.
    + destruct (split c s) as [|f fs]; [by intros ->%list_elem_of_singleton; simpl; rewrite decide_False|].
      intros [->|Hin]%elem_of_cons.
      * simpl. rewrite decide_False by done. apply IH, list_elem_of_here.
      * by apply IH, list_elem_of_further.
Qed.

Lemma contains_lstrip_inv (c : ascii) (s : string) :
  contains c (lstrip s) = true → contains c s = true.
Proof.
  induction s as [|a s IH]; [done|]. simpl.
  destruct (isspace a); [|done]. case_decide; auto.
Qed.

Lemma contains_rstrip_inv (c : ascii) (s : string) :
  contains c (rstrip s) = true → contains c s = true.
Proof.
  induction s as [|a s IH]; [done|]. simpl.
  destruct (rstrip s) as [|a' r] eqn:E.
  - destruct (isspace a); simpl; [done|]. by case_decide.
  - destruct (decide (a = c)) as [->|Hne]; [done|].
    simpl. rewrite decide_False by done. exact IH.
Qed.

Lemma contains_strip_inv (c : ascii) (s : string) :
  contains c (strip s) = true → contains c s = true.
Proof. intros Hc. by apply contains_lstrip_inv, contains_rstrip_inv. Qed.

(** X8. Every specifier taken from a field value is trimmed and holds no
    comma. *)
Theorem specifiers_trimmed (value s : string) :
  s ∈ specifiers value → strip s = s ∧ contains "," s = false.
Proof.
  unfold specifiers.
  intros (d & -> & [_ Hd]%list_elem_of_filter)%list_elem_of_fmap.
  split; [apply strip_idem|].
  destruct (contains "," (strip d)) eqn:Hc; [|done].
  apply contains_strip_inv in Hc. by rewrite (split_no_sep _ _ _ Hd) in Hc.
Qed.

Lemma split_nonempty (c : ascii) (s : string) : split c s ≠ [].
Proof.
  destruct s as [|a s]; [done|]. simpl.
  case_decide; [done|]. by destruct (split c s).
Qed.

Lemma split_snoc_sep (c : ascii) (s : string) :
  split c (s +:+ String c "") = split c s ++ [""].
Proof.
  induction s as [|a s IH].
  - rewrite app_empty_l. simpl. by destruct (decide (c = c)).
  - rewrite app_cons. simpl. rewrite IH. case_decide; [done|].
    pose proof (split_nonempty c s). by destruct (split c s).
Qed.

(** X9. An empty field value gives no specifier, and a comma in front of
    a value or behind it adds none. *)
Theorem specifiers_stray_commas (value : string) :
  specifiers "" = []
  ∧ specifiers ("," +:+ value) = specifiers value
  ∧ specifiers (value +:+ ",") = specifiers value.
Proof.
  split_and!; [done|done|]. unfold specifiers.
  rewrite split_snoc_sep, filter_app, fmap_app. simpl. apply app_nil_r.
Qed.

Lemma dep_of_inr p (r n : string) d :
  dep_of p r = inr (n, d) →
  ∃ name, search_name r = Some name ∧ n = normalized_name name
          ∧ dep_pkg d = p ∧ dep_flag d = Z.lor BUILD RUN.
Proof.
  intros Hd. destruct (search_name r) as [name|] eqn:Hname.
  - exists name. rewrite (dep_of_named _ _ _ Hname) in Hd.
    unfold new_dep in Hd.
    destruct (search_paren r); destruct (mkSpec _); by simplify_eq.
  - apply search_name_none in Hname. by rewrite dep_of_unnamed in Hd.
Qed.

Lemma convert_entries p deps0 deps (l : list string) (n : string) d :
  convert p deps0 l = inr deps → deps !! n = Some d →
  deps0 !! n = Some d ∨ ∃ r, r ∈ l ∧ dep_of p r = inr (n, d).
Proof.
  revert deps0. induction l as [|r l IH]; simpl; intros deps0 Hc Hn.
  - simplify_eq. by left.
  - destruct (dep_of p r) as [e|[n' d']] eqn:Hd; [done|].
    destruct (IH _ Hc Hn) as [Hi|(r' & Hin & Hr')].
    + apply lookup_insert_Some in Hi as [[-> ->]|[_ Hi]]; [|by left].
      right. exists r. split; [apply list_elem_of_here|done].
    + right. exists r'. split; [by apply list_elem_of_further|done].
Qed.

Lemma convert_keeps_keys p deps0 deps (l : list string) (n : string) :
  convert p deps0 l = inr deps → is_Some (deps0 !! n) → is_Some (deps !! n).
Proof.
  revert deps0. induction l as [|r l IH]; simpl; intros deps0 Hc Hn.
  - by simplify_eq.
  - destruct (dep_of p r) as [e|[n' d']]; [done|]. apply (IH _ Hc).
    apply lookup_insert_is_Some. destruct (decide (n' = n)); auto.
Qed.

Lemma convert_stores p deps0 deps (l : list string) (r : string) :
  convert p deps0 l = inr deps → r ∈ l →
  ∃ n d, dep_of p r = inr (n, d) ∧ is_Some (deps !! n).
Proof.
  revert deps0. induction l as [|r' l IH]; simpl; intros deps0 Hc Hin.
  - by apply elem_of_nil in Hin.
  - destruct (dep_of p r') as [e|[n' d']] eqn:Hd; [done|].
    apply elem_of_cons in Hin as [->|Hin]; [|by eapply IH].
    exists n', d'. split; [done|]. apply (convert_keeps_keys _ _ _ _ _ Hc).
    rewrite lookup_insert_eq. by eexists.
Qed.

(** X10. When all specifiers are converted, [deps] holds exactly what
    they give: each entry is the dependency of one of the specifiers,
    stored under the normalized name of its leading identifier, for the
    package at hand and with the build and run types; and each specifier
    has an entry under its name. *)
Theorem deps_come_from_specifiers p (r_deps : list string) deps :
  convert p ∅ r_deps = inr deps →
  (∀ n d, deps !! n = Some d →
     ∃ r name, r ∈ r_deps ∧ dep_of p r = inr (n, d)
               ∧ search_name r = Some name ∧ n = normalized_name name
               ∧ dep_pkg d = p ∧ dep_flag d = Z.lor BUILD RUN)
  ∧ (∀ r, r ∈ r_deps → ∃ n d, dep_of p r = inr (n, d) ∧ is_Some (deps !! n)).
Proof.
  intros Hc. split.
  - intros n d Hn.
    destruct (convert_entries _ _ _ _ _ _ Hc Hn) as [?|(r & Hin & Hd)]; [done|].
    destruct (dep_of_inr _ _ _ _ Hd) as (name & ? & ? & ? & ?).
    by exists r, name.
  - intros r Hin. by eapply convert_stores.
Qed.

Lemma normalized_name_eq (n1 n2 : string) :
  normalized_name n1 = normalized_name n2 ↔ lower n1 = lower n2.
Proof.
  unfold normalized_name.
  change (String.append "r-") with (λ s, String "r" (String "-" s)).
  destruct (decide (n1 = "R" ∨ n1 = "r")) as [H1|H1];
    destruct (decide (n2 = "R" ∨ n2 = "r")) as [H2|H2];
    rewrite <-lower_eq_r in H1, H2; cbv beta.
  - by rewrite H1, H2.
  - rewrite H1. split; [done|]. intros Heq. by rewrite <-Heq in H2.
  - rewrite H2. split; [done|]. intros Heq. by rewrite Heq in H1.
  - split; [|by intros ->]. by intros [= ->].
Qed.

(** X11. Two specifiers are stored under the same name exactly when
    their leading identifiers agree up to the case of the letters. *)
Theorem same_key_iff_same_name_up_to_case p (r1 r2 n1 n2 k1 k2 : string) d1 d2 :
  search_name r1 = Some n1 → search_name r2 = Some n2 →
  dep_of p r1 = inr (k1, d1) → dep_of p r2 = inr (k2, d2) →
  k1 = k2 ↔ lower n1 = lower n2.
Proof.
  intros Hn1 Hn2 Hd1 Hd2.
  destruct (dep_of_inr _ _ _ _ Hd1) as (n1' & Hn1' & -> & _).
  destruct (dep_of_inr _ _ _ _ Hd2) as (n2' & Hn2' & -> & _).
  simplify_eq. apply normalized_name_eq.
Qed.

Lemma sub_op_absent_second (o o2 : ascii) (op suffix s : string) :
  contains o2 s = false → sub_op (String o (String o2 op)) suffix 0 s = s.
Proof.
  induction s as [|c s IH]; [done|]. intros Hc.
  assert (contains o2 s = false) as Hs.
  { simpl in Hc. by case_decide. }
  assert (match_op (String o (String o2 op)) (String c s) = None) as Hm.
  { unfold match_op. simpl. case_decide; [|done].
    destruct s as [|c2 s']; [done|]. simpl in Hs.
    destruct (decide (c2 = o2)) as [->|Hne]; [done|]. simpl.
    by rewrite decide_False by congruence. }
  change (sub_op (String o (String o2 op)) suffix 0 (String c s))
    with (match match_op (String o (String o2 op)) (String c s) with
          | Some v =>
              "@" +:+ v +:+ suffix
                +:+ sub_op (String o (String o2 op)) suffix
                      (String.length (String o (String o2 op)) + String.length v) s
          | None => String c (sub_op (String o (String o2 op)) suffix 0 s)
          end).
  by rewrite Hm, IH.
Qed.

Lemma strip_prefix_all_chars (q : ascii → bool) (op s t : string) :
  strip_prefix op s = Some t → all_chars q s = true → all_chars q t = true.
Proof.
  revert s. induction op as [|a op IH]; intros s.
  - destruct s; by intros [= <-].
  - destruct s as [|b s]; [done|]. simpl. case_decide; [|done].
    intros Hp [_ Hs]%andb_prop. by apply (IH s).
Qed.

Lemma sub_op_no_space (op suffix s : string) :
  all_chars (λ c, negb (isspace c)) s = true → sub_op op suffix 0 s = s.
Proof.
  induction s as [|c s IH]; [done|]. intros Hall.
  assert (match_op op (String c s) = None) as Hm.
  { unfold match_op.
    destruct (strip_prefix op (String c s)) as [[|w rest]|] eqn:Hp; [done| |done].
    apply (strip_prefix_all_chars _ _ _ _ Hp) in Hall. simpl in Hall.
    apply andb_prop in Hall as [Hw _]. by apply negb_true_iff in Hw as ->. }
  change (sub_op op suffix 0 (String c s))
    with (match match_op op (String c s) with
          | Some v =>
              "@" +:+ v +:+ suffix
                +:+ sub_op op suffix (String.length op + String.length v) s
          | None => String c (sub_op op suffix 0 s)
          end).
  rewrite Hm, IH; [done|]. simpl in Hall. by apply andb_prop in Hall as [_ ?].
Qed.

(** X12. A clause in parentheses that holds no equals sign, or no white
    space, is not translated: it is put behind the normalized name as it
    is. So a clause with > or <, or with >= and no space, reaches [Spec]
    unchanged. *)
Theorem untranslated_clause p (name clause : string) :
  name ≠ "" → all_chars isnamechar name = true →
  all_chars (λ c, negb (ord c =? 10)%N) clause = true →
  contains "=" clause = false
  ∨ all_chars (λ c, negb (isspace c)) clause = true →
  dep_of p (name +:+ " (" +:+ clause +:+ ")")
  = new_dep p (normalized_name name) (normalized_name name +:+ clause).
Proof.
  intros Hne Hname Hnl Hclause.
  rewrite (dep_of_named p _ name) by by apply search_name_app.
  rewrite search_paren_clause by done.
  assert (sub_eq (sub_ge clause) = clause) as ->; [|done].
  unfold sub_eq, sub_ge. destruct Hclause as [Heq|Hsp].
  - rewrite (sub_op_absent_second ">" "=" "" ":") by done.
    by rewrite sub_op_absent_second.
  - rewrite (sub_op_no_space ">=") by done. by rewrite sub_op_no_space.
Qed.

Lemma dep_in_never (env : Env) d merged :
  (∀ d' k, dep_eq_key env d' k = false) → dep_in env d merged = false.
Proof.
  intros Hne. unfold dep_in.
  induction (elements (dom merged)) as [|k ks IH]; [done|].
  simpl. by rewrite Hne.
Qed.

Lemma merge_items_never (env : Env) merged (items : dict Dependency) :
  (∀ d k, dep_eq_key env d k = false) →
  merge_items env merged items
  = inr (foldl (λ m nd, <[nd.1 := nd.2]> m) merged items).
Proof.
  intros Hne. revert merged.
  induction items as [|[n d] items IH]; [done|]. intros merged. simpl.
  by rewrite dep_in_never.
Qed.

Lemma merge_all_never (env : Env) merged (dicts : list (dict Dependency)) :
  (∀ d k, dep_eq_key env d k = false) →
  merge_all env merged dicts
  = inr (foldl (λ m nd, <[nd.1 := nd.2]> m) merged (concat dicts)).
Proof.
  intros Hne. revert merged.
  induction dicts as [|items dicts IH]; [done|]. intros merged. simpl.
  by rewrite merge_items_never, IH, foldl_app.
Qed.

Lemma foldl_insert_list_to_map (l : dict Dependency) :
  foldl (λ m nd, <[nd.1 := nd.2]> m) (∅ : gmap string Dependency) l
  = list_to_map (reverse l).
Proof.
  induction l as [|[n d] l IH] using rev_ind; [done|].
  by rewrite foldl_app, reverse_snoc, IH.
Qed.

(** X13. When no dependency object is equal to a key of
    [merged_dependencies], which are names, the test of the merge loop
    never holds: no two rules are merged, the loops do not raise, and of
    the active rules for a name the last one alone is kept. *)
Theorem rules_are_not_merged (env : Env) :
  (∀ d k, dep_eq_key env d k = false) →
  ∃ merged,
    merge_all env ∅ (spack_dependencies env) = inr merged
    ∧ merged = list_to_map (reverse (concat (spack_dependencies env)))
    ∧ ∀ before after (n : string) d,
        concat (spack_dependencies env) = before ++ (n, d) :: after →
        n ∉ after.*1 → merged !! n = Some d.
Proof.
  intros Hne. eexists. split; [by apply merge_all_never|].
  split; [apply foldl_insert_list_to_map|].
  intros before after n d -> Hn.
  rewrite foldl_insert_list_to_map, reverse_app, reverse_cons, <-app_assoc.
  rewrite list_to_map_app, lookup_union_r.
  - simpl. apply lookup_insert_eq.
  - apply not_elem_of_list_to_map_1. by rewrite fmap_reverse, elem_of_reverse.
Qed.

Lemma report_is_verdict_lines (version : string) deps merged :
  report version deps merged
  = (verdict_lines version deps merged (sorted_keys deps), inr tt).
Proof.
  unfold report, verdict_lines. apply for_each_log.
  intros n [d Hd]%sorted_keys_elem. unfold check_dep, verdict_of.
  rewrite Hd. simpl. rewrite app_nil_r.
  destruct (merged !! n) as [m|]; [|done].
  by destruct (satisfies (dep_spec m) (dep_spec d)).
Qed.

Lemma bind_nil_iff {A B} (f : A → list B) (l : list A) :
  (x ← l; f x) = [] ↔ ∀ x, x ∈ l → f x = [].
Proof.
  induction l as [|a l IH].
  - split; [|done]. by intros _ x ?%elem_of_nil.
  - rewrite bind_cons. split.
    + intros [Ha Hl]%app_eq_nil x [->|Hx]%elem_of_cons; [done|].
      by apply IH.
    + intros Hf. rewrite (Hf a) by apply list_elem_of_here.
      apply IH. intros x Hx. by apply Hf, list_elem_of_further.
Qed.

(** X15. The last loop writes nothing exactly when every dependency of
    the DESCRIPTION file has a rule in the recipe whose spec satisfies
    its spec. *)
Theorem report_silent_iff (version : string) deps merged :
  (report version deps merged).1 = []
  ↔ ∀ n d, deps !! n = Some d →
           ∃ m, merged !! n = Some m
                ∧ satisfies (dep_spec m) (dep_spec d) = true.
Proof.
  rewrite report_is_verdict_lines. simpl. unfold verdict_lines.
  rewrite bind_nil_iff. split.
  - intros Hall n d Hd.
    specialize (Hall n (proj2 (sorted_keys_elem deps n) (mk_is_Some _ _ Hd))).
    rewrite Hd in Hall. simpl in Hall. rewrite app_nil_r in Hall.
    unfold verdict_of in Hall. destruct (merged !! n) as [m|]; [|done].
    exists m. by destruct (satisfies (dep_spec m) (dep_spec d)).
  - intros Hall n [d Hd]%sorted_keys_elem. rewrite Hd. simpl.
    rewrite app_nil_r. destruct (Hall n d Hd) as (m & Hm & Hs).
    unfold verdict_of. by rewrite Hm, Hs.
Qed.

Lemma length_bind_le {A B} (f : A → list B) (l : list A) :
  (∀ x, x ∈ l → length (f x) ≤ 1) → length (x ← l; f x) ≤ length l.
Proof.
  induction l as [|a l IH]; [done|]. intros Hf.
  rewrite bind_cons, length_app. simpl.
  pose proof (Hf a (list_elem_of_here _ _)).
  assert (length (x ← l; f x) ≤ length l); [|lia].
  apply IH. intros x Hx. by apply Hf, list_elem_of_further.
Qed.

Lemma length_bind_eq {A B} (f : A → list B) (l : list A) :
  (∀ x, x ∈ l → length (f x) = 1) → length (x ← l; f x) = length l.
Proof.
  induction l as [|a l IH]; [done|]. intros Hf.
  rewrite bind_cons, length_app. simpl.
  rewrite (Hf a) by apply list_elem_of_here.
  rewrite IH; [done|]. intros x Hx. by apply Hf, list_elem_of_further.
Qed.

Lemma length_sorted_keys deps : length (sorted_keys deps) = size deps.
Proof.
  unfold sorted_keys. rewrite merge_sort_Permutation.
  by rewrite <-size_dom.
Qed.

(** X16. The last loop writes at most one line for each dependency of
    the DESCRIPTION file, and exactly one for each when the recipe has no
    active rule. *)
Theorem report_length (version : string) deps merged :
  length (report version deps merged).1 ≤ size deps
  ∧ length (report version deps ∅).1 = size deps.
Proof.
  rewrite !report_is_verdict_lines. simpl. unfold verdict_lines.
  rewrite <-length_sorted_keys. split.
  - apply length_bind_le. intros n [d Hd]%sorted_keys_elem. rewrite Hd. simpl.
    rewrite app_nil_r. destruct (verdict_of merged n d); simpl; lia.
  - apply length_bind_eq. intros n [d Hd]%sorted_keys_elem. by rewrite Hd.
Qed.

(** X17. [install] never ends with ImportError, wherever in the [try]
    block it is raised, and when it ends normally R has been called with
    the arguments of the builder, whatever the DESCRIPTION file holds. *)
Theorem install_outcome (env : Env) :
  (install env).2 ≠ inl ImportError
  ∧ ∀ args, (install env).2 = inr args → args = r_args env.
Proof.
  unfold install, try_except_ImportError.
  destruct (verify env) as [log [[]|[]]]; simpl; split; try done;
    by intros args [= <-].
Qed.

(** X18. With pycran at hand, a DESCRIPTION file that cannot be read
    and an exception of the parser other than ImportError leave [install]
    before R is called and before any line is written; an ImportError of
    the parser is taken for a missing pycran. *)
Theorem install_propagates (env : Env) parse :
  pycran env = Some parse →
  (description env = None → install env = ([], inl OSError))
  ∧ (∀ text records e,
       description env = Some text → parse text = (records, Some e) →
       install env
       = match e with
         | ImportError =>
             (["R package dependency verification requires pycran"],
              inr (r_args env))
         | _ => ([], inl e)
         end).
Proof.
  intros Hpy. unfold install, verify. rewrite Hpy. split.
  - by intros ->.
  - intros text records e -> Hparse. simpl. unfold read_r_deps.
    rewrite Hparse. by destruct e.
Qed.

Lemma specifiers_empty : specifiers "" = [].
Proof. done. Qed.

(** X19. When the records of the DESCRIPTION file have no Imports and no
    Depends field, or empty ones, and the merge loops do not raise,
    [install] writes no line and calls R. *)
Theorem install_without_r_dependencies (env : Env) parse text records merged :
  pycran env = Some parse → description env = Some text →
  parse text = (records, None) →
  Forall (λ rec, ∀ key, key = "Imports" ∨ key = "Depends" →
                 dict_get key rec = None ∨ dict_get key rec = Some "")
         records →
  merge_all env ∅ (spack_dependencies env) = inr merged →
  install env = ([], inr (r_args env)).
Proof.
  intros Hpy Htext Hparse Hrec Hmerge.
  assert (concat (desc_deps <$> records) = []) as Hdeps.
  { clear -Hrec. induction Hrec as [|rec recs Hr _ IH]; [done|].
    rewrite fmap_cons. simpl. rewrite IH, app_nil_r. unfold desc_deps.
    destruct (Hr "Imports" (or_introl eq_refl)) as [-> | ->];
      destruct (Hr "Depends" (or_intror eq_refl)) as [-> | ->];
      by rewrite ?specifiers_empty. }
  unfold install, verify. rewrite Hpy, Htext. simpl. unfold read_r_deps.
  rewrite Hparse, Hdeps. simpl. by rewrite Hmerge.
Qed.

(** X24. When nothing in the [try] block raises, [install] writes the
    lines of the verdicts of the last loop, for the dependencies of the
    DESCRIPTION file in the order of their names, and then calls R. *)
Theorem install_reports_verdicts (env : Env) parse text records deps merged :
  pycran env = Some parse → description env = Some text →
  parse text = (records, None) →
  convert (pkg env) ∅ (concat (desc_deps <$> records)) = inr deps →
  merge_all env ∅ (spack_dependencies env) = inr merged →
  install env
  = (verdict_lines (pkg_version env) deps merged (sorted_keys deps),
     inr (r_args env)).
Proof.
  intros Hpy Htext Hparse Hconv Hmerge.
  unfold install, verify. rewrite Hpy, Htext. simpl. unfold read_r_deps.
  rewrite Hparse. simpl. rewrite Hconv. simpl. rewrite Hmerge. simpl.
  rewrite report_is_verdict_lines. simpl. by rewrite !app_nil_r.
Qed.

End BuilderMore.

(** * Properties of [RPackage] *)
Section RPackageFacts.
Import RPackage.

(** X20. [url] raises IndexError exactly when [cran] is set and the
    package has no version; it is None exactly when [cran] is not set. *)
Theorem url_failure (cls : attrs) :
  (url cls = inl IndexError ↔ truthy (cran cls) = true ∧ versions cls = [])
  ∧ (url cls = inr None ↔ truthy (cran cls) = false)
  ∧ ∀ e, url cls = inl e → e = IndexError.
Proof.
  unfold url. destruct (truthy (cran cls)); destruct (versions cls);
    split_and!; try split; try done; try (by intros [? ?]);
    by intros e [= <-].
Qed.

(** X21. When [url] gives an address, the package is a CRAN package:
    [homepage] and [list_url] are set from the same [cran] name and do not
    depend on [bioc], and the address ends with the first version and
    .tar.gz. *)
Theorem url_consistent (cls : attrs) (u : string) :
  url cls = inr (Some u) →
  ∃ name v rest,
    cran cls = Some name ∧ name ≠ "" ∧ versions cls = v :: rest
    ∧ u = "https://cloud.r-project.org/src/contrib/"
          +:+ name +:+ "_" +:+ v +:+ ".tar.gz"
    ∧ homepage cls = Some ("https://cloud.r-project.org/package=" +:+ name)
    ∧ list_url cls
      = Some ("https://cloud.r-project.org/src/contrib/Archive/"
              +:+ name +:+ "/").
Proof.
  unfold url, homepage, list_url.
  destruct (cran cls) as [[|c name]|] eqn:Hc; simpl; [done| |done].
  destruct (versions cls) as [|v rest]; [done|]. intros [= <-].
  by exists (String c name), v, rest.
Qed.

(** X22. A package has no homepage exactly when neither [cran] nor
    [bioc] is set, and it has a git address exactly when [bioc] is set;
    so a package with a git address always has a homepage. *)
Theorem homepage_and_git (cls : attrs) :
  (homepage cls = None
   ↔ truthy (cran cls) = false ∧ truthy (bioc cls) = false)
  ∧ (is_Some (git cls) ↔ truthy (bioc cls) = true)
  ∧ (is_Some (git cls) → is_Some (homepage cls)).
Proof.
  unfold homepage, git.
  destruct (truthy (cran cls)); destruct (truthy (bioc cls));
    split_and!; try split; try done; try (by intros [? ?]);
    try (by intros [? ?]%is_Some_alt); by eexists.
Qed.

End RPackageFacts.

(** ** The further properties at concrete inputs *)

Lemma parse_description_keeps_field_names_witness :
  concat (keys <$> (parse_description
                      ("A: 1" +:+ nl +:+ "B: 2" +:+ nl +:+ "A: 3")).1)
  = candidate_field
      <$> filter (λ l, field_line l = true)
            (splitlines ("A: 1" +:+ nl +:+ "B: 2" +:+ nl +:+ "A: 3")).
Proof.
  apply (parse_description_keeps_field_names
           ("A: 1" +:+ nl +:+ "B: 2" +:+ nl +:+ "A: 3")).
  reflexivity.
Defined.

Lemma parse_description_no_colon_witness :
  parse_description ("no field" +:+ nl +:+ "at all") = ([], None).
Proof.
  apply (parse_description_no_colon ("no field" +:+ nl +:+ "at all")).
  reflexivity.
Defined.

Lemma parse_description_distinct_fields_witness :
  parse_description ("A: 1" +:+ nl +:+ "B: 2")
  = ([(λ l, (candidate_field l, candidate_value l))
        <$> splitlines ("A: 1" +:+ nl +:+ "B: 2")], None).
Proof.
  apply (parse_description_distinct_fields ("A: 1" +:+ nl +:+ "B: 2")).
  - discriminate.
  - apply (bool_decide_unpack _). vm_compute. exact I.
  - apply (bool_decide_unpack _). vm_compute. exact I.
Defined.

Lemma specifiers_trimmed_witness :
  strip "B (>= 1.0)" = "B (>= 1.0)" ∧ contains "," "B (>= 1.0)" = false.
Proof.
  apply (specifiers_trimmed "A,  B (>= 1.0) " "B (>= 1.0)").
  apply (bool_decide_unpack _). vm_compute. exact I.
Defined.

Lemma deps_come_from_specifiers_witness :
  ∃ n d, @dep_of text_spack tt "B" = inr (n, d)
         ∧ is_Some ((<["r-b" := @MkDependency text_spack tt "r-b" 5]>
                       (<["r-a" := @MkDependency text_spack tt "r-a@1.0:" 5]> ∅)
                     : gmap string Dependency) !! n).
Proof.
  apply (proj2 (@deps_come_from_specifiers text_spack tt
                  ["A (>= 1.0)"; "B"] _ eq_refl) "B").
  apply (bool_decide_unpack _). vm_compute. exact I.
Defined.

Lemma same_key_iff_same_name_up_to_case_witness :
  "r-rcpp" = "r-rcpp" ↔ lower "Rcpp" = lower "rcpp".
Proof.
  apply (@same_key_iff_same_name_up_to_case text_spack tt
           "Rcpp" "rcpp (>= 1.0)" "Rcpp" "rcpp" "r-rcpp" "r-rcpp"
           (@MkDependency text_spack tt "r-rcpp" 5)
           (@MkDependency text_spack tt "r-rcpp@1.0:" 5));
    reflexivity.
Defined.

Lemma untranslated_clause_witness :
  @dep_of text_spack tt "R (> 4.0)" = @new_dep text_spack tt "r" "r> 4.0".
Proof.
  apply (@untranslated_clause text_spack tt "R" "> 4.0").
  - discriminate.
  - reflexivity.
  - reflexivity.
  - left. reflexivity.
Defined.

Lemma rules_are_not_merged_witness :
  ∃ merged,
    merge_all rules_env ∅ (spack_dependencies rules_env) = inr merged
    ∧ merged = list_to_map (reverse (concat (spack_dependencies rules_env)))
    ∧ ∀ before after (n : string) d,
        concat (spack_dependencies rules_env) = before ++ (n, d) :: after →
        n ∉ after.*1 → merged !! n = Some d.
Proof. apply (rules_are_not_merged rules_env). intros d k. reflexivity. Defined.

Lemma install_propagates_witness :
  install no_file_env = ([], inl OSError).
Proof.
  apply (proj1 (install_propagates no_file_env parse_description eq_refl)).
  reflexivity.
Defined.

Lemma install_without_r_dependencies_witness :
  install (text_env ("Package: x" +:+ nl +:+ "Version: 1"))
  = ([], inr (r_args (text_env ("Package: x" +:+ nl +:+ "Version: 1")))).
Proof.
  apply (install_without_r_dependencies
           (text_env ("Package: x" +:+ nl +:+ "Version: 1"))
           parse_description ("Package: x" +:+ nl +:+ "Version: 1")
           [[("Package", "x"); ("Version", "1")]] ∅).
  - reflexivity.
  - reflexivity.
  - reflexivity.
  - constructor; [|constructor]. intros k [-> | ->]; left; reflexivity.
  - reflexivity.
Defined.

Lemma url_consistent_witness :
  ∃ name v rest,
    RPackage.cran dplyr_attrs = Some name ∧ name ≠ ""
    ∧ RPackage.versions dplyr_attrs = v :: rest
    ∧ "https://cloud.r-project.org/src/contrib/dplyr_1.1.0.tar.gz"
      = "https://cloud.r-project.org/src/contrib/"
          +:+ name +:+ "_" +:+ v +:+ ".tar.gz"
    ∧ RPackage.homepage dplyr_attrs
      = Some ("https://cloud.r-project.org/package=" +:+ name)
    ∧ RPackage.list_url dplyr_attrs
      = Some ("https://cloud.r-project.org/src/contrib/Archive/"
              +:+ name +:+ "/").
Proof.
  apply (url_consistent dplyr_attrs
           "https://cloud.r-project.org/src/contrib/dplyr_1.1.0.tar.gz").
  reflexivity.
Defined.

Lemma install_reports_verdicts_witness :
  install (text_env "Imports: A")
  = (verdict_lines "1.0" (<["r-a" := @MkDependency text_spack tt "r-a" 5]> ∅) ∅
       (sorted_keys (<["r-a" := @MkDependency text_spack tt "r-a" 5]> ∅)),
     inr (r_args (text_env "Imports: A"))).
Proof.
  apply (install_reports_verdicts (text_env "Imports: A") parse_description
           "Imports: A" [[("Imports", "A")]]
           (<["r-a" := @MkDependency text_spack tt "r-a" 5]> ∅) ∅);
    reflexivity.
Defined.
